(** * intgrad1: integration of a sampled derivative through a cubic spline

    A shallow embedding of [intgrad1] (src/intgrad1/intgrad1.py), the Python
    port of John D'Errico's MATLAB routine, and the properties its
    specification states about it.

    Numbers are IEEE binary64 values, as numpy's float64: Rocq's primitive
    floats.  Arrays are kept with the shape numpy gives them, because the
    arithmetic of line 90 goes through numpy's broadcasting.  The spline fit
    itself belongs to scipy and is a parameter of the development. *)

From Stdlib Require Import String List Bool Arith ZArith Lia.
From Stdlib Require Import Uint63 Floats.
Import ListNotations.

Local Open Scope string_scope.
Local Open Scope list_scope.
Local Open Scope nat_scope.

(** ** Exceptions *)

(** The function raises bare [Exception(msg)] objects and tells its failures
    apart by message only; whatever numpy or scipy raise on their own passes
    through untouched. *)
Inductive exn : Type :=
| Exception (msg : string)
| External (msg : string).

Definition result (A : Type) : Type := (exn + A)%type.

Definition ret {A : Type} (a : A) : result A := inr a.
Definition raise {A : Type} (e : exn) : result A := inl e.

Definition bind {A B : Type} (m : result A) (k : A -> result B) : result B :=
  match m with
  | inl e => inl e
  | inr a => k a
  end.

Notation "x <- m ;; k" := (bind m (fun x => k))
  (at level 61, m at next level, right associativity).

Definition msg_not_vector : string := "dfdx must be a vector.".
Definition msg_too_short : string := "dfdx must be a vector of length >= 2".
Definition msg_not_monotonic : string := "x points must be monotonic increasing".
Definition msg_bad_spacing : string := "dx is not a scalar or of length == nx".
Definition msg_bad_initial : string := "f1 must be a finite scalar numeric variable.".
Definition msg_broadcast : string := "operands could not be broadcast together".
Definition msg_empty_truth : string :=
  "The truth value of an empty array is ambiguous. Use `array.size > 0` to check that an array is not empty.".
Definition msg_ambiguous_truth : string :=
  "The truth value of an array with more than one element is ambiguous. Use a.any() or a.all()".

(** The four error kinds of the specification, read off the messages. *)
Definition ShapeError (e : exn) : Prop :=
  e = Exception msg_not_vector \/ e = Exception msg_too_short.
Definition SpacingError (e : exn) : Prop := e = Exception msg_bad_spacing.
Definition MonotonicityError (e : exn) : Prop := e = Exception msg_not_monotonic.

(** ** Values handed to the function *)

(** [fx]: a numpy array of any rank, its shape and its elements in C order.
    Only [shape] and [size] are looked at before the rank is known to be 1. *)
Record ndarray : Type := mk_ndarray { shape : list nat; data : list float }.

Definition ndim (a : ndarray) : nat := length (shape a).
Definition size (a : ndarray) : nat := fold_right Nat.mul 1 (shape a).

(** A one-dimensional array holding [l]. *)
Definition vec (l : list float) : ndarray :=
  {| shape := [length l]; data := l |}.

(** [dx] and [f1]: a Python number or a flat sequence of numbers. *)
Inductive pyval : Type :=
| Scalar (x : float)
| Seq (l : list float).

Definition elems (v : pyval) : list float :=
  match v with
  | Scalar x => [x]
  | Seq l => l
  end.

(** [np.size(v)], which is also [np.array([v]).size]. *)
Definition np_size (v : pyval) : nat := length (elems v).

(** ** The numpy layer *)

(** Arrays met inside the function: rank 1, or rank 2 as a list of rows. *)
Inductive array : Type :=
| Arr1 (v : list float)
| Arr2 (rows : list (list float)).

Definition float_of_nat (k : nat) : float :=
  PrimFloat.of_uint63 (Uint63.of_Z (Z.of_nat k)).

Section Zip.
Context {A B C : Type}.
Variable f : A -> B -> C.

Fixpoint zip_with (a : list A) (b : list B) : list C :=
  match a, b with
  | x :: a', y :: b' => f x y :: zip_with a' b'
  | _, _ => []
  end.
End Zip.

Fixpoint all_some {A : Type} (l : list (option A)) : option (list A) :=
  match l with
  | [] => Some []
  | None :: _ => None
  | Some x :: t =>
      match all_some t with
      | Some r => Some (x :: r)
      | None => None
      end
  end.

(** Broadcasting along one axis: equal lengths pair up, a length of one is
    stretched, anything else is refused. *)
Definition bc_row (f : float -> float -> float) (a b : list float)
  : option (list float) :=
  if length a =? length b then Some (zip_with f a b)
  else match a, b with
       | [x], _ => Some (map (f x) b)
       | _, [y] => Some (map (fun x => f x y) a)
       | _, _ => None
       end.

(** The same rule on the leading axis of two rank-2 arrays. *)
Definition bc_rows (f : float -> float -> float) (a b : list (list float))
  : option (list (list float)) :=
  if length a =? length b then all_some (zip_with (bc_row f) a b)
  else match a, b with
       | [r], _ => all_some (map (bc_row f r) b)
       | _, [r] => all_some (map (fun x => bc_row f x r) a)
       | _, _ => None
       end.

Definition lift {A B : Type} (k : A -> B) (o : option A) : result B :=
  match o with
  | Some a => ret (k a)
  | None => raise (External msg_broadcast)
  end.

(** An elementwise binary operator on two arrays: the shorter shape is
    padded with a leading axis of length one, then both axes broadcast. *)
Definition binop (f : float -> float -> float) (a b : array) : result array :=
  match a, b with
  | Arr1 u, Arr1 v => lift Arr1 (bc_row f u v)
  | Arr1 u, Arr2 q => lift Arr2 (bc_rows f [u] q)
  | Arr2 p, Arr1 v => lift Arr2 (bc_rows f p [v])
  | Arr2 p, Arr2 q => lift Arr2 (bc_rows f p q)
  end.

(** An array divided by a Python number. *)
Definition div_scalar (a : array) (k : float) : array :=
  match a with
  | Arr1 v => Arr1 (map (fun x => PrimFloat.div x k) v)
  | Arr2 p => Arr2 (map (map (fun x => PrimFloat.div x k)) p)
  end.

(** [np.linspace(0, n-1, num=n)]: the floats 0, 1, ..., n-1. *)
Definition linspace0 (n : nat) : list float := map float_of_nat (seq 0 n).

(** [np.matlib.repmat(v, m, n)], as [numpy.matlib] defines it: [v] as one
    row, tiled [m] times down and [n] times across.  The result always has
    rank 2; [repmat(dx, nx-1, 1)] is a column of shape [(nx-1, 1)]. *)
Definition repmat (v : pyval) (m n : nat) : array :=
  Arr2 (repeat (concat (repeat (elems v) n)) m).

(** [np.diff] of a flat sequence: [out[i] = a[i+1] - a[i]]. *)
Fixpoint diff (a : list float) : list float :=
  match a with
  | x :: ((y :: _) as t) => PrimFloat.sub y x :: diff t
  | _ => []
  end.

(** [a.ravel()]: the elements in C order. *)
Definition ravel (a : array) : list float :=
  match a with
  | Arr1 v => v
  | Arr2 p => concat p
  end.

Fixpoint running (acc : float) (l : list float) : list float :=
  match l with
  | [] => []
  | x :: t => let s := PrimFloat.add acc x in s :: running s t
  end.

(** [np.cumsum(a)] with no axis: the running sum of the flattened array,
    accumulated from the left. *)
Definition cumsum (a : array) : list float :=
  match ravel a with
  | [] => []
  | x :: t => x :: running x t
  end.

(** [bool(a)] for a boolean array: the element of an array of one, and
    numpy's [ValueError] for any other size.  (Up to numpy 2.1 an empty array
    counted as false, under a deprecation warning; since 2.2 it raises.) *)
Definition truth (l : list bool) : result bool :=
  match l with
  | [b] => ret b
  | [] => raise (External msg_empty_truth)
  | _ => raise (External msg_ambiguous_truth)
  end.

Definition np_isnan (v : pyval) : list bool := map PrimFloat.is_nan (elems v).
Definition np_isfinite (v : pyval) : list bool := map PrimFloat.is_finite (elems v).

(** A number or sequence on the left of an array product or sum. *)
Definition scale (f : float -> float -> float) (v : pyval) (a : list float)
  : result (list float) :=
  match v with
  | Scalar x => ret (map (f x) a)
  | Seq l => lift (fun r => r) (bc_row f l a)
  end.

(** ** The spline *)

(** One piece of the fitted spline: coefficients of t^3, t^2, t and 1 in the
    local variable of the piece, a row of [pp.c.T]. *)
Record piece : Type := mk_piece { k0 : float; k1 : float; k2 : float; k3 : float }.

(** [c[:,j]] for j = 0..3. *)
Definition column (j : nat) (c : list piece) : array :=
  Arr1 (map (fun p => match j with
                      | 0 => k0 p
                      | 1 => k1 p
                      | 2 => k2 p
                      | _ => k3 p
                      end) c).

(** ** The function *)

(** What lines 66-82 leave behind: the coordinates [xp], the widths that
    [dx] is rebound to, and the uniformity flag. *)
Record knots : Type := mk_knots { xp : list float; widths : array; uniflag : bool }.

(** The literal [1.e-15], that is the binary64 value nearest to it. *)
Definition tiny : float := 0x1.203af9ee75616p-50%float.

Definition any_nonpositive (d : list float) : bool :=
  existsb (fun x => PrimFloat.leb x 0%float) d.

Definition any_above (bound : float) (d : list float) : bool :=
  existsb (fun x => PrimFloat.ltb bound (PrimFloat.abs x)) d.

(** Lines 66-82. *)
Definition spacing (nx : nat) (dx : pyval) : result knots :=
  if np_size dx =? 1 then
    x <- scale (fun d t => PrimFloat.mul t d) dx (linspace0 nx) ;;
    ret {| xp := x; widths := repmat dx (nx - 1) 1; uniflag := true |}
  else if np_size dx =? nx then
    let x := elems dx in
    let d := diff x in
    let dd := diff d in
    if any_nonpositive d then raise (Exception msg_not_monotonic)
    else ret {| xp := x; widths := Arr1 d;
                uniflag := negb (any_above (PrimFloat.mul (last x 0%float) tiny) dd) |}
  else raise (Exception msg_bad_spacing).

(** Line 83, [np.size(f1) > 1 or np.isnan(f1) or not np.isfinite(f1)]:
    Python's [or] asks for the truth of an operand only when those before
    it were false. *)
Definition bad_initial (f1 : pyval) : result bool :=
  if 1 <? np_size f1 then ret true
  else
    a <- truth (np_isnan f1) ;;
    if a then ret true
    else
      b <- truth (np_isfinite f1) ;;
      ret (negb b).

(** Lines 59-84: everything that happens before the spline is fitted. *)
Definition resolve (fx : ndarray) (dx f1 : pyval) : result knots :=
  if 1 <? ndim fx then raise (Exception msg_not_vector)
  else
    let nx := size fx in
    if nx <? 2 then raise (Exception msg_too_short)
    else
      k <- spacing nx dx ;;
      b <- bad_initial f1 ;;
      if b then raise (Exception msg_bad_initial)
      else ret k.

(** Line 90: [dx*(c[:,3] + dx*(c[:,2]/2 + dx*(c[:,1]/3 + dx*c[:,0]/4)))]. *)
Definition segment_integrals (dx : array) (c : list piece) : result array :=
  t0 <- binop PrimFloat.mul dx (column 0 c) ;;
  t1 <- binop PrimFloat.add (div_scalar (column 1 c) 3%float) (div_scalar t0 4%float) ;;
  t2 <- binop PrimFloat.mul dx t1 ;;
  t3 <- binop PrimFloat.add (div_scalar (column 2 c) 2%float) t2 ;;
  t4 <- binop PrimFloat.mul dx t3 ;;
  t5 <- binop PrimFloat.add (column 3 c) t4 ;;
  binop PrimFloat.mul dx t5.

(** [scipy.interpolate.CubicSpline(xp, fx).c.T]: one row per piece, or the
    message of the exception scipy raises (it is never one of the five
    [Exception] objects above). *)
Definition fitter : Type := list float -> list float -> string + list piece.

Section Intgrad1.

Variable CubicSpline : fitter.

(** Lines 88-91. *)
Definition integrate (k : knots) (fx : ndarray) (f1 : pyval)
  : result (list float) :=
  match CubicSpline (xp k) (data fx) with
  | inl m => raise (External m)
  | inr c =>
      fhat <- segment_integrals (widths k) c ;;
      scale PrimFloat.add f1 (0%float :: cumsum fhat)
  end.

Definition intgrad1 (fx : ndarray) (dx f1 : pyval) : result (list float) :=
  k <- resolve fx dx f1 ;;
  integrate k fx f1.

End Intgrad1.

(** ** The quantities the specification speaks of *)

(** The integral of one piece over a width [w], in the grouping of the
    specification: [w*(c3 + w*(c2/2 + w*(c1/3 + w*c0/4)))]. *)
Definition seg_integral (w : float) (p : piece) : float :=
  (w * (k3 p + w * (k2 p / 2 + w * (k1 p / 3 + w * k0 p / 4))))%float.

(** SegmentWidths: the widths as a flat sequence. *)
Definition segment_widths (k : knots) : list float := ravel (widths k).

(** The sum of the first [k] entries, added from the left, zero when
    there is none. *)
Definition partial_sum (l : list float) (k : nat) : float :=
  match firstn k l with
  | [] => 0%float
  | x :: t => fold_left PrimFloat.add t x
  end.

(** The coordinates [0, dx, 2dx, ..., (n-1)dx]. *)
Definition grid (n : nat) (dx : float) : list float :=
  map (fun t => PrimFloat.mul t dx) (linspace0 n).

(** Some adjacent difference is not positive. *)
Definition has_nonpositive_step (s : list float) : Prop :=
  exists i, i + 1 < length s /\ (nth (i + 1) s 0 - nth i s 0 <=? 0)%float = true.

(** A single finite real number: one element, neither NaN nor infinite. *)
Definition single_finite (v : pyval) : Prop :=
  exists x, elems v = [x] /\ PrimFloat.is_finite x = true.

(** The documented shape of scipy's coefficients: one piece per gap. *)
Definition shape_contract (fit : fitter) : Prop :=
  forall x y c, fit x y = inr c -> length c = length x - 1.

(** The chord through consecutive samples, written as a cubic with no
    curvature.  It is what the not-a-knot spline reduces to for two samples
    and for samples of a constant, and it serves as a concrete fitter. *)
Fixpoint chords (x y : list float) : list piece :=
  match x, y with
  | x0 :: ((x1 :: _) as x'), y0 :: ((y1 :: _) as y') =>
      {| k0 := 0; k1 := 0; k2 := ((y1 - y0) / (x1 - x0))%float; k3 := y0 |}
        :: chords x' y'
  | _, _ => []
  end.

Definition chord_fit : fitter :=
  fun x y =>
    if length x =? length y then inr (chords x y)
    else inl "The length of `y` along `axis`=0 doesn't match the length of `x`".

(** ** The call on a store of objects *)

(** To speak of what the call does to the objects of its caller, the same
    lines are read once more as a computation on a store: arrays are cells,
    a name holds a number or the location of a cell, and every numpy or
    scipy call that the function binds to a name puts its result in a new
    cell.  Line 73, [xp = dx], binds a second name to the cell of the
    caller. *)
Module Store.

Definition loc : Type := nat.

Inductive cell : Type :=
| Nd (a : ndarray)
| Grid (a : array)
| Coefs (c : list piece).

Definition store : Type := list cell.

Inductive value : Type :=
| VNum (x : float)
| VRef (p : loc).

Definition M (A : Type) : Type := store -> store * result A.

Definition mret {A : Type} (a : A) : M A := fun h => (h, inr a).
Definition throw {A : Type} (e : exn) : M A := fun h => (h, inl e).

Definition mbind {A B : Type} (m : M A) (k : A -> M B) : M B :=
  fun h =>
    match m h with
    | (h', inl e) => (h', inl e)
    | (h', inr a) => k a h'
    end.

Notation "x <~ m ;; k" := (mbind m (fun x => k))
  (at level 61, m at next level, right associativity).

(** A fresh cell. *)
Definition new (c : cell) : M loc := fun h => (h ++ [c], inr (length h)).

Definition get (p : loc) : M cell :=
  fun h =>
    match nth_error h p with
    | Some c => (h, inr c)
    | None => (h, inl (External "no such object"))
    end.

(** An update in place, as an indexed assignment or [+=] on an array
    would be.  No line of the function is one. *)
Fixpoint update (h : store) (p : loc) (c : cell) : store :=
  match h, p with
  | [], _ => []
  | _ :: t, 0 => c :: t
  | x :: t, S q => x :: update t q c
  end.

Definition put (p : loc) (c : cell) : M unit := fun h => (update h p c, inr tt).

Definition of_result {A : Type} (r : result A) : M A := fun h => (h, r).

Definition get_nd (p : loc) : M ndarray :=
  c <~ get p ;;
  match c with
  | Nd a => mret a
  | _ => throw (External "not an array")
  end.

(** What a name holds, as the function reads it. *)
Definition load (v : value) : M pyval :=
  match v with
  | VNum x => mret (Scalar x)
  | VRef p => a <~ get_nd p ;; mret (Seq (data a))
  end.

(** Every object of [h] is still there, with the same content, in [h']. *)
Definition unchanged (h h' : store) : Prop :=
  forall p c, nth_error h p = Some c -> nth_error h' p = Some c.

(** A computation that leaves every object it finds as it was. *)
Definition preserving {A : Type} (m : M A) : Prop :=
  forall h, unchanged h (fst (m h)).

Section Call.
Variable CubicSpline : fitter.

Definition intgrad1 (fx : loc) (dx f1 : value) : M loc :=
  a <~ get_nd fx ;;
  (* lines 59-64 *)
  if 1 <? ndim a then throw (Exception msg_not_vector) else
  let nx := size a in
  if nx <? 2 then throw (Exception msg_too_short) else
  (* lines 66-82 *)
  d <~ load dx ;;
  k <~ of_result (spacing nx d) ;;
  xp_ <~ match dx with
         | VRef p => if np_size d =? 1 then new (Nd (vec (xp k))) else mret p
         | VNum _ => new (Nd (vec (xp k)))
         end ;;
  dx_ <~ new (Grid (widths k)) ;;
  (* line 83 *)
  i <~ load f1 ;;
  b <~ of_result (bad_initial i) ;;
  if b then throw (Exception msg_bad_initial) else
  (* lines 88-89 *)
  x <~ get_nd xp_ ;;
  y <~ get_nd fx ;;
  match CubicSpline (data x) (data y) with
  | inl m => throw (External m)
  | inr c =>
      c_ <~ new (Coefs c) ;;
      (* line 90 *)
      w <~ get dx_ ;;
      match w with
      | Grid w =>
          fhat <~ of_result (segment_integrals w c) ;;
          fhat_ <~ new (Grid fhat) ;;
          (* line 91 *)
          out <~ of_result (scale PrimFloat.add i (0%float :: cumsum fhat)) ;;
          new (Nd (vec out))
      | _ => throw (External "not an array")
      end
  end.
End Call.

End Store.

(** ** Further vocabulary *)

(** The messages of the five [raise] statements, lines 60, 64, 78, 82, 84. *)
Definition own_messages : list string :=
  [msg_not_vector; msg_too_short; msg_not_monotonic; msg_bad_spacing; msg_bad_initial].

(** Each pair of neighbours in the sequence has a NaN in it. *)
Definition nan_in_every_step (s : list float) : Prop :=
  forall i, i + 1 < length s ->
    PrimFloat.is_nan (nth i s 0%float) = true
    \/ PrimFloat.is_nan (nth (i + 1) s 0%float) = true.

(** The second difference at [i], as [np.diff(np.diff(s))] computes it. *)
Definition second_difference (s : list float) (i : nat) : float :=
  ((nth (i + 2) s 0 - nth (i + 1) s 0) - (nth (i + 1) s 0 - nth i s 0))%float.

(** A computation on the store whose result, when there is one, is an
    array that did not exist before it ran. *)
Definition returns_new_array (m : Store.M Store.loc) : Prop :=
  forall h h' p,
    m h = (h', inr p) ->
    length h <= p /\ exists out, nth_error h' p = Some (Store.Nd (vec out)).

(** ** Lists and broadcasting *)

Section ListFacts.
Context {A B C D : Type}.

Lemma zip_with_length (f : A -> B -> C) (a : list A) (b : list B) :
  length (zip_with f a b) = Nat.min (length a) (length b).
Proof.
  revert b; induction a as [|x a IH]; intros [|y b]; simpl; auto.
Qed.

Lemma zip_with_map_r (f : A -> B -> C) (g : D -> B) (a : list A) (c : list D) :
  zip_with f a (map g c) = zip_with (fun w p => f w (g p)) a c.
Proof.
  revert c; induction a as [|x a IH]; intros [|p c]; simpl; auto.
  now rewrite IH.
Qed.

Lemma zip_with_repeat_l (f : A -> B -> C) (x : A) (b : list B) :
  zip_with f (repeat x (length b)) b = map (f x) b.
Proof.
  induction b as [|y b IH]; simpl; auto. now rewrite IH.
Qed.

Lemma all_some_repeat (x : A) (m : nat) :
  all_some (repeat (Some x) m) = Some (repeat x m).
Proof.
  induction m as [|m IH]; simpl; auto. now rewrite IH.
Qed.

Lemma map_repeat (f : A -> B) (x : A) (m : nat) :
  map f (repeat x m) = repeat (f x) m.
Proof.
  induction m as [|m IH]; simpl; auto. now rewrite IH.
Qed.

Lemma zip_with_repeat (f : A -> B -> C) (x : A) (y : B) (m : nat) :
  zip_with f (repeat x m) (repeat y m) = repeat (f x y) m.
Proof.
  induction m as [|m IH]; simpl; auto. now rewrite IH.
Qed.
End ListFacts.

Lemma zip_with_zip_l (f : float -> float -> float) (h : float -> piece -> float)
      (d : list float) (c : list piece) :
  zip_with f d (zip_with h d c) = zip_with (fun w p => f w (h w p)) d c.
Proof.
  revert c; induction d as [|w d IH]; intros [|p c]; simpl; auto.
  now rewrite IH.
Qed.

Lemma zip_with_map_zip (f : float -> float -> float) (g : piece -> float)
      (h : float -> piece -> float) (d : list float) (c : list piece) :
  length d = length c ->
  zip_with f (map g c) (zip_with h d c) = zip_with (fun w p => f (g p) (h w p)) d c.
Proof.
  revert c; induction d as [|w d IH]; intros [|p c]; simpl; auto; try discriminate.
  intros H. injection H as H. now rewrite IH.
Qed.

Lemma bc_row_same f (u v : list float) :
  length u = length v -> bc_row f u v = Some (zip_with f u v).
Proof.
  intros H. unfold bc_row. now rewrite H, Nat.eqb_refl.
Qed.

Lemma bc_row_one f x (v : list float) : bc_row f [x] v = Some (map (f x) v).
Proof.
  unfold bc_row. destruct (length [x] =? length v) eqn:E; auto.
  apply Nat.eqb_eq in E. destruct v as [|y [|z v]]; try discriminate. reflexivity.
Qed.

Lemma bc_rows_col_row f x (v : list float) (m : nat) :
  1 <= m -> bc_rows f (repeat [x] m) [v] = Some (repeat (map (f x) v) m).
Proof.
  intros Hm. unfold bc_rows. rewrite repeat_length.
  destruct m as [|[|m]]; [lia| |].
  - simpl. now rewrite bc_row_one.
  - change (S (S m) =? length [v]) with false.
    change (repeat [x] (S (S m))) with ([x] :: [x] :: repeat [x] m) at 1.
    cbv iota beta.
    rewrite (map_repeat (fun x0 => bc_row f x0 v)), bc_row_one.
    apply all_some_repeat.
Qed.

Lemma bc_rows_row_mat f (u r : list float) (m : nat) :
  1 <= m -> length u = length r ->
  bc_rows f [u] (repeat r m) = Some (repeat (zip_with f u r) m).
Proof.
  intros Hm Hl. unfold bc_rows. rewrite repeat_length.
  destruct m as [|[|m]]; [lia| |].
  - simpl. now rewrite bc_row_same.
  - change (length [u] =? S (S m)) with false. cbv iota beta.
    rewrite (map_repeat (bc_row f u)), bc_row_same by assumption.
    apply all_some_repeat.
Qed.

Lemma bc_rows_col_mat f x (r : list float) (m : nat) :
  bc_rows f (repeat [x] m) (repeat r m) = Some (repeat (map (f x) r) m).
Proof.
  unfold bc_rows. rewrite !repeat_length, Nat.eqb_refl.
  rewrite zip_with_repeat, bc_row_one. apply all_some_repeat.
Qed.

(** ** Line 90 under the two shapes of [dx] *)

Ltac lengths :=
  repeat first [rewrite zip_with_length | rewrite length_map | rewrite repeat_length];
  lia.

Ltac step_binop :=
  cbn [binop bind lift ret div_scalar column].

(** [dx] is what line 74 leaves: a rank-1 array of as many widths as there
    are pieces.  Everything pairs up elementwise. *)
Lemma segment_integrals_rank1 (d : list float) (c : list piece) :
  length d = length c ->
  segment_integrals (Arr1 d) c = inr (Arr1 (zip_with seg_integral d c)).
Proof.
  intros H. unfold segment_integrals.
  do 7 (step_binop; rewrite bc_row_same by lengths).
  step_binop. unfold ret. do 2 f_equal.
  revert c H; induction d as [|w d IH]; intros [|p c] H; simpl; auto; try discriminate.
  injection H as H. f_equal. now apply IH.
Qed.

(** [dx] is what line 70 leaves: the rank-2 column [repmat(dx, nx-1, 1)].
    Against the rank-1 columns of [c] it broadcasts to a square array, every
    row of which holds all the segment integrals. *)
Lemma segment_integrals_rank2 (x : float) (c : list piece) (m : nat) :
  1 <= m -> length c = m ->
  segment_integrals (Arr2 (repeat [x] m)) c
  = inr (Arr2 (repeat (map (seg_integral x) c) m)).
Proof.
  intros Hm Hc. unfold segment_integrals.
  step_binop. rewrite bc_rows_col_row by assumption.
  step_binop. rewrite map_repeat, bc_rows_row_mat by (assumption || lengths).
  step_binop. rewrite bc_rows_col_mat.
  step_binop. rewrite bc_rows_row_mat by (assumption || lengths).
  step_binop. rewrite bc_rows_col_mat.
  step_binop. rewrite bc_rows_row_mat by (assumption || lengths).
  step_binop. rewrite bc_rows_col_mat.
  step_binop. unfold ret. do 3 f_equal.
  clear Hm Hc. induction c as [|p c IH]; simpl; auto.
  f_equal. apply IH.
Qed.

(** ** Where errors come from *)

Lemma lift_error {A B : Type} (k : A -> B) (o : option A) (e : exn) :
  lift k o = inl e -> e = External msg_broadcast.
Proof. destruct o; simpl; intros H; now inversion H. Qed.

Lemma binop_error f (a b : array) (e : exn) :
  binop f a b = inl e -> e = External msg_broadcast.
Proof. destruct a, b; simpl; apply lift_error. Qed.

Lemma bind_inl {A B : Type} (m : result A) (k : A -> result B) (e : exn) :
  bind m k = inl e -> m = inl e \/ exists a, m = inr a /\ k a = inl e.
Proof. destruct m as [e'|a]; simpl; intros H; [left; now inversion H | right; eauto]. Qed.

Lemma bind_inr {A B : Type} (m : result A) (k : A -> result B) (b : B) :
  bind m k = inr b -> exists a, m = inr a /\ k a = inr b.
Proof. destruct m as [e'|a]; simpl; intros H; [discriminate | eauto]. Qed.

Ltac split_bind H :=
  let H1 := fresh "Hb" in
  let a := fresh "t" in
  apply bind_inl in H; destruct H as [H | [a [H1 H]]];
  [apply binop_error in H; exact H | ].

Lemma segment_integrals_error (dx : array) (c : list piece) (e : exn) :
  segment_integrals dx c = inl e -> e = External msg_broadcast.
Proof.
  unfold segment_integrals. intros H.
  do 6 (split_bind H).
  now apply binop_error in H.
Qed.

Lemma scale_error f (v : pyval) (a : list float) (e : exn) :
  scale f v a = inl e -> e = External msg_broadcast.
Proof.
  destruct v; simpl; [discriminate | apply lift_error].
Qed.

(** Once the checks of lines 59-84 are passed, only numpy and scipy can
    fail. *)
Lemma integrate_error (fit : fitter) (k : knots) (fx : ndarray) (f1 : pyval) (e : exn) :
  integrate fit k fx f1 = inl e -> exists m, e = External m.
Proof.
  unfold integrate. destruct (fit (xp k) (data fx)) as [m|c].
  - intros H; inversion H; eauto.
  - intros H. apply bind_inl in H. destruct H as [H | [a [_ H]]].
    + apply segment_integrals_error in H. eauto.
    + apply scale_error in H. eauto.
Qed.

(** ** The spacing resolver *)

Lemma spacing_single (nx : nat) (dx : pyval) (x : float) :
  elems dx = [x] ->
  spacing nx dx
  = inr {| xp := grid nx x; widths := Arr2 (repeat [x] (nx - 1)); uniflag := true |}.
Proof.
  intros H. unfold spacing, np_size, repmat. rewrite H. simpl length.
  rewrite Nat.eqb_refl.
  destruct dx as [y|l]; simpl in H.
  - injection H as ->. reflexivity.
  - subst l. simpl. rewrite bc_row_one. reflexivity.
Qed.

Lemma spacing_sequence (nx : nat) (s : list float) :
  nx <> 1 -> length s = nx ->
  spacing nx (Seq s)
  = if any_nonpositive (diff s) then raise (Exception msg_not_monotonic)
    else ret {| xp := s; widths := Arr1 (diff s);
                uniflag := negb (any_above (PrimFloat.mul (last s 0%float) tiny)
                                           (diff (diff s))) |}.
Proof.
  intros Hn Hl. unfold spacing, np_size. simpl elems. rewrite Hl.
  destruct (nx =? 1) eqn:E; [apply Nat.eqb_eq in E; contradiction|].
  now rewrite Nat.eqb_refl.
Qed.

Lemma spacing_refused (nx : nat) (dx : pyval) :
  np_size dx <> 1 -> np_size dx <> nx ->
  spacing nx dx = raise (Exception msg_bad_spacing).
Proof.
  intros H1 H2. unfold spacing.
  apply Nat.eqb_neq in H1, H2. now rewrite H1, H2.
Qed.

Lemma single_elem (v : pyval) : np_size v = 1 -> exists x, elems v = [x].
Proof.
  unfold np_size. destruct (elems v) as [|x [|y l]]; try discriminate. eauto.
Qed.

(** Line 83 by the number of elements of [f1]. *)
Lemma bad_initial_cases (f1 : pyval) :
  bad_initial f1
  = match elems f1 with
    | [] => raise (External msg_empty_truth)
    | [x] => ret (PrimFloat.is_nan x || negb (PrimFloat.is_finite x))
    | _ => ret true
    end.
Proof.
  unfold bad_initial, np_size, np_isnan, np_isfinite.
  destruct (elems f1) as [|x [|y l]]; simpl; try reflexivity.
  destruct (PrimFloat.is_nan x); reflexivity.
Qed.

Lemma bad_initial_error (f1 : pyval) (e : exn) :
  bad_initial f1 = inl e -> e = External msg_empty_truth /\ elems f1 = [].
Proof.
  rewrite bad_initial_cases. destruct (elems f1) as [|x [|y l]]; intros H;
    inversion H. auto.
Qed.

Ltac case_initial f1 H :=
  let B := fresh "B" in
  let eb := fresh "eb" in
  destruct (bad_initial f1) as [eb|[|]] eqn:B; cbn [bind] in H;
  [ apply bad_initial_error in B; destruct B as [-> _]; try discriminate
  | try discriminate
  | ].

Lemma resolve_checked (fx : ndarray) (dx f1 : pyval) :
  ndim fx = 1 -> 2 <= size fx ->
  resolve fx dx f1
  = (k <- spacing (size fx) dx ;;
     b <- bad_initial f1 ;;
     if b then raise (Exception msg_bad_initial) else ret k).
Proof.
  intros Hd Hs. unfold resolve. rewrite Hd. simpl (1 <? 1).
  destruct (size fx <? 2) eqn:E; [apply Nat.ltb_lt in E; lia | reflexivity].
Qed.

Lemma length_diff (s : list float) : length (diff s) = length s - 1.
Proof.
  induction s as [|x [|y s] IH]; simpl; auto.
  simpl in IH. rewrite IH. lia.
Qed.

Lemma nth_diff (s : list float) (i : nat) :
  i + 1 < length s ->
  nth i (diff s) 0%float = (nth (i + 1) s 0 - nth i s 0)%float.
Proof.
  revert i; induction s as [|x [|y s] IH]; intros i H; simpl in H; try lia.
  destruct i as [|i].
  - reflexivity.
  - change (diff (x :: y :: s)) with ((y - x)%float :: diff (y :: s)).
    change (nth (S i) ((y - x)%float :: diff (y :: s)) 0%float)
      with (nth i (diff (y :: s)) 0%float).
    rewrite IH by (simpl; lia). reflexivity.
Qed.

Lemma any_nonpositive_step (s : list float) :
  any_nonpositive (diff s) = true <-> has_nonpositive_step s.
Proof.
  unfold any_nonpositive, has_nonpositive_step. rewrite existsb_exists. split.
  - intros [d [Hin Hd]]. apply (In_nth _ _ 0%float) in Hin.
    destruct Hin as [i [Hi Hn]]. rewrite length_diff in Hi.
    exists i. split; [lia|]. rewrite <- nth_diff by lia. now rewrite Hn.
  - intros [i [Hi Hd]]. exists (nth i (diff s) 0%float). split.
    + apply nth_In. rewrite length_diff. lia.
    + now rewrite nth_diff.
Qed.

(** ** Rejected inputs *)

(** C7. A derivative that is not one-dimensional, or one-dimensional with
    fewer than two elements, is refused with a ShapeError; the error is fixed
    by the derivative alone, whatever the spacing, the initial value and the
    spline fitter are, since it is raised on lines 59-64 before they are
    looked at. *)
Theorem shape_rejected (fx : ndarray) :
  ndim fx <> 1 \/ size fx < 2 ->
  exists e, ShapeError e /\
    forall (fit : fitter) (dx f1 : pyval),
      resolve fx dx f1 = inl e /\ intgrad1 fit fx dx f1 = inl e.
Proof.
  intros H. unfold intgrad1, resolve, ShapeError.
  destruct (1 <? ndim fx) eqn:E1.
  - exists (Exception msg_not_vector). split; [now left|]. intros; split; reflexivity.
  - destruct (size fx <? 2) eqn:E2.
    + exists (Exception msg_too_short). split; [now right|]. intros; split; reflexivity.
    + apply Nat.ltb_ge in E1, E2. exfalso.
      destruct H as [H|H]; [|lia].
      assert (Hz : ndim fx = 0) by lia.
      unfold ndim in Hz. apply length_zero_iff_nil in Hz.
      unfold size in E2. rewrite Hz in E2. simpl in E2. lia.
Qed.

Lemma shape_rejected_witness :
  exists e, ShapeError e /\
    forall (fit : fitter) (dx f1 : pyval),
      resolve (vec [5%float]) dx f1 = inl e /\
      intgrad1 fit (vec [5%float]) dx f1 = inl e.
Proof.
  apply (shape_rejected (vec [5%float])). right. cbv. lia.
Defined.

(** C8. For a one-dimensional derivative of n >= 2 samples the call raises
    SpacingError exactly when the size of the spacing argument is neither 1
    nor n, and a spacing of one element is handled as the scalar it holds. *)
Theorem spacing_rejected_iff (fit : fitter) (fx : ndarray) (dx f1 : pyval) :
  ndim fx = 1 -> 2 <= size fx ->
  ((exists e, SpacingError e /\ intgrad1 fit fx dx f1 = inl e)
   <-> (np_size dx <> 1 /\ np_size dx <> size fx))
  /\ (forall x, intgrad1 fit fx (Seq [x]) f1 = intgrad1 fit fx (Scalar x) f1).
Proof.
  intros Hd Hs. split; [split|].
  - intros [e [He H]]. unfold SpacingError in He. subst e.
    unfold intgrad1 in H. rewrite resolve_checked in H by assumption.
    destruct (Nat.eq_dec (np_size dx) 1) as [E1|E1].
    + exfalso. destruct (single_elem dx E1) as [x Hx].
      rewrite (spacing_single _ _ _ Hx) in H. simpl in H.
      case_initial f1 H.
      apply integrate_error in H. destruct H as [m H]. discriminate.
    + split; [assumption|]. intros E2. exfalso.
      destruct dx as [y|s]; [now apply E1|].
      unfold np_size in E1, E2. simpl in E1, E2.
      rewrite spacing_sequence in H by (assumption || lia).
      destruct (any_nonpositive (diff s)); simpl in H; [discriminate|].
      case_initial f1 H.
      apply integrate_error in H. destruct H as [m H]. discriminate.
  - intros [H1 H2]. exists (Exception msg_bad_spacing). split; [reflexivity|].
    unfold intgrad1. rewrite resolve_checked by assumption.
    now rewrite spacing_refused.
  - intros x. unfold intgrad1. rewrite !resolve_checked by assumption.
    now rewrite (spacing_single _ (Seq [x]) x eq_refl), (spacing_single _ (Scalar x) x eq_refl).
Qed.

Lemma spacing_rejected_iff_witness :
  ((exists e, SpacingError e /\
      intgrad1 chord_fit (vec [1; 2; 4]%float) (Seq [0; 1]%float) (Scalar 0%float) = inl e)
   <-> (np_size (Seq [0; 1]%float) <> 1 /\
        np_size (Seq [0; 1]%float) <> size (vec [1; 2; 4]%float)))
  /\ (forall x, intgrad1 chord_fit (vec [1; 2; 4]%float) (Seq [x]) (Scalar 0%float)
                = intgrad1 chord_fit (vec [1; 2; 4]%float) (Scalar x) (Scalar 0%float)).
Proof.
  apply (spacing_rejected_iff chord_fit (vec [1; 2; 4]%float) (Seq [0; 1]%float)
           (Scalar 0%float)).
  - reflexivity.
  - cbv; lia.
Defined.

(** C6. With a spacing sequence of n coordinates for a one-dimensional
    derivative of n >= 2 samples, the call raises MonotonicityError exactly
    when some adjacent difference of the coordinates is <= 0; the error comes
    out of the checks of lines 59-84, which do not involve the spline. *)
Theorem monotonicity_rejected_iff (fit : fitter) (fx : ndarray) (s : list float)
        (f1 : pyval) :
  ndim fx = 1 -> 2 <= size fx -> length s = size fx ->
  ((exists e, MonotonicityError e /\ intgrad1 fit fx (Seq s) f1 = inl e)
   <-> has_nonpositive_step s)
  /\ (has_nonpositive_step s ->
      resolve fx (Seq s) f1 = inl (Exception msg_not_monotonic)).
Proof.
  intros Hd Hs Hl.
  assert (R : resolve fx (Seq s) f1
              = (k <- (if any_nonpositive (diff s)
                       then raise (Exception msg_not_monotonic)
                       else ret {| xp := s; widths := Arr1 (diff s);
                                   uniflag := negb (any_above
                                     (PrimFloat.mul (last s 0%float) tiny)
                                     (diff (diff s))) |}) ;;
                 b <- bad_initial f1 ;;
                 if b then raise (Exception msg_bad_initial) else ret k)).
  { rewrite resolve_checked by assumption.
    now rewrite spacing_sequence by (assumption || lia). }
  split; [split|].
  - intros [e [He H]]. unfold MonotonicityError in He. subst e.
    apply any_nonpositive_step.
    unfold intgrad1 in H. rewrite R in H.
    destruct (any_nonpositive (diff s)); [reflexivity|]. exfalso.
    simpl in H. case_initial f1 H.
    apply integrate_error in H. destruct H as [m H]. discriminate.
  - intros H. apply any_nonpositive_step in H.
    exists (Exception msg_not_monotonic). split; [reflexivity|].
    unfold intgrad1. rewrite R, H. reflexivity.
  - intros H. apply any_nonpositive_step in H. rewrite R, H. reflexivity.
Qed.

Lemma monotonicity_rejected_iff_witness :
  ((exists e, MonotonicityError e /\
      intgrad1 chord_fit (vec [1; 1; 1; 1]%float) (Seq [0; 1; 1; 3]%float)
               (Scalar 0%float) = inl e)
   <-> has_nonpositive_step [0; 1; 1; 3]%float)
  /\ (has_nonpositive_step [0; 1; 1; 3]%float ->
      resolve (vec [1; 1; 1; 1]%float) (Seq [0; 1; 1; 3]%float) (Scalar 0%float)
      = inl (Exception msg_not_monotonic)).
Proof.
  apply (monotonicity_rejected_iff chord_fit (vec [1; 1; 1; 1]%float)
           [0; 1; 1; 3]%float (Scalar 0%float)).
  - reflexivity.
  - cbv; lia.
  - reflexivity.
Defined.

(** ** Binary64 facts *)

Lemma SFeqb_refl (s : spec_float) : s <> S754_nan -> SFeqb s s = true.
Proof.
  intros H. unfold SFeqb, SFcompare.
  destruct s as [b|b| |b m e]; try (destruct b; reflexivity); [contradiction|].
  destruct b; rewrite Z.compare_refl;
    change (Pos.compare_cont Eq m m) with (Pos.compare m m);
    now rewrite Pos.compare_refl.
Qed.

Lemma is_nan_spec (x : float) : PrimFloat.is_nan x = false -> Prim2SF x <> S754_nan.
Proof.
  unfold PrimFloat.is_nan. rewrite eqb_spec. intros H E. rewrite E in H. discriminate.
Qed.

(** Adding [0.0] to anything but NaN gives back a value that compares
    equal to it (the sign of a zero may change). *)
Lemma add_zero_eqb (x : float) :
  PrimFloat.is_nan x = false -> (x + 0 =? x)%float = true.
Proof.
  intros H. apply is_nan_spec in H.
  rewrite eqb_spec, add_spec.
  change (Prim2SF 0%float) with (S754_zero false).
  destruct (Prim2SF x) as [b|b| |b m e] eqn:E; try contradiction.
  - destruct b; reflexivity.
  - destruct b; reflexivity.
  - unfold SF64add, SFadd. apply SFeqb_refl. discriminate.
Qed.

(** Bit for bit, [x + 0.0] is [x] unless [x] is the negative zero. *)
Lemma add_zero_eq (x : float) :
  (x + 0)%float = x \/ x = PrimFloat.neg_zero.
Proof.
  destruct (Prim2SF x) as [b|b| |b m e] eqn:E.
  - destruct b.
    + right. apply Prim2SF_inj. now rewrite E.
    + left. apply Prim2SF_inj. rewrite add_spec, E. reflexivity.
  - left. apply Prim2SF_inj. rewrite add_spec, E. reflexivity.
  - left. apply Prim2SF_inj. rewrite add_spec, E. reflexivity.
  - left. apply Prim2SF_inj. rewrite add_spec, E. reflexivity.
Qed.

Lemma is_finite_not_nan (x : float) :
  PrimFloat.is_finite x = true -> PrimFloat.is_nan x = false.
Proof.
  unfold PrimFloat.is_finite. destruct (PrimFloat.is_nan x); simpl; auto.
Qed.

(** Line 83 lets through exactly the single finite numbers. *)
Lemma bad_initial_spec (f1 : pyval) : bad_initial f1 = inr false <-> single_finite f1.
Proof.
  rewrite bad_initial_cases. unfold single_finite.
  destruct (elems f1) as [|x [|y l]].
  - split; [discriminate | intros [x [H _]]; discriminate].
  - split.
    + intros H. exists x. split; [reflexivity|].
      destruct (PrimFloat.is_finite x); [reflexivity|].
      destruct (PrimFloat.is_nan x); discriminate.
    + intros [z [Hz Hf]]. injection Hz as <-.
      now rewrite Hf, (is_finite_not_nan _ Hf).
  - split; [discriminate | intros [z [H _]]; discriminate].
Qed.

(** Line 83 finds fault with whatever has an element and is not a single
    finite number. *)
Lemma bad_initial_true (f1 : pyval) :
  bad_initial f1 = inr true <-> (elems f1 <> [] /\ ~ single_finite f1).
Proof.
  split.
  - intros H. split.
    + intros E. rewrite bad_initial_cases, E in H. discriminate.
    + intros Hf. apply bad_initial_spec in Hf. congruence.
  - intros [Hne Hf]. destruct (bad_initial f1) as [e|[|]] eqn:B.
    + apply bad_initial_error in B. destruct B as [_ E]. contradiction.
    + reflexivity.
    + exfalso. apply Hf. now apply bad_initial_spec.
Qed.

Lemma bad_initial_empty (f1 : pyval) :
  elems f1 = [] -> bad_initial f1 = inl (External msg_empty_truth).
Proof. intros E. now rewrite bad_initial_cases, E. Qed.




(** ** Accepted inputs *)

Lemma resolve_inr (fx : ndarray) (dx f1 : pyval) (kn : knots) :
  resolve fx dx f1 = inr kn ->
  ndim fx <= 1 /\ 2 <= size fx /\ spacing (size fx) dx = inr kn
  /\ bad_initial f1 = inr false.
Proof.
  unfold resolve.
  destruct (1 <? ndim fx) eqn:E1; [discriminate|].
  destruct (size fx <? 2) eqn:E2; [discriminate|].
  apply Nat.ltb_ge in E1, E2.
  destruct (spacing (size fx) dx) as [e|k]; simpl; [discriminate|].
  destruct (bad_initial f1) as [e|[|]]; simpl; try discriminate.
  intros H. injection H as ->. auto.
Qed.

(** The two ways through lines 66-82 that do not raise. *)
Lemma spacing_inr (nx : nat) (dx : pyval) (kn : knots) :
  spacing nx dx = inr kn ->
  (exists x, elems dx = [x] /\
     kn = {| xp := grid nx x; widths := Arr2 (repeat [x] (nx - 1)); uniflag := true |})
  \/ (exists s, dx = Seq s /\ length s = nx /\ nx <> 1 /\
        xp kn = s /\ widths kn = Arr1 (diff s)).
Proof.
  intros H. destruct (Nat.eq_dec (np_size dx) 1) as [E|E].
  - left. destruct (single_elem dx E) as [x Hx]. exists x. split; [assumption|].
    rewrite (spacing_single nx dx x Hx) in H. now injection H.
  - right. destruct (Nat.eq_dec (np_size dx) nx) as [E'|E'].
    + destruct dx as [y|s]; [now contradiction E|]. exists s.
      unfold np_size in E, E'. simpl in E, E'.
      rewrite spacing_sequence in H by congruence.
      destruct (any_nonpositive (diff s)); [discriminate|].
      injection H as <-. repeat split; auto; congruence.
    + rewrite spacing_refused in H by assumption. discriminate.
Qed.

Lemma scale_single f (v : pyval) (x : float) (a : list float) :
  elems v = [x] -> scale f v a = inr (map (f x) a).
Proof.
  destruct v as [y|l]; simpl; intros H.
  - now injection H as ->.
  - subst l. now rewrite bc_row_one.
Qed.

Lemma concat_repeat_single {A : Type} (a : A) (m : nat) :
  concat (repeat [a] m) = repeat a m.
Proof. induction m as [|m IH]; simpl; auto. now rewrite IH. Qed.

Lemma length_concat_repeat {A : Type} (r : list A) (m : nat) :
  length (concat (repeat r m)) = m * length r.
Proof.
  induction m as [|m IH]; simpl; auto. now rewrite length_app, IH.
Qed.

Lemma size_vec (l : list float) : size (vec l) = length l.
Proof. unfold size, vec. simpl. lia. Qed.

Lemma length_grid (n : nat) (x : float) : length (grid n x) = n.
Proof. unfold grid, linspace0. now rewrite !length_map, length_seq. Qed.

(** What line 90 yields for an accepted input, given one piece per gap: the
    flattened result begins with the segment integrals in ascending order,
    and its length is the number of gaps for a spacing sequence but the
    square of that number for a scalar spacing. *)
Lemma segment_integrals_resolved (l : list float) (dx f1 : pyval) (kn : knots)
      (c : list piece) :
  resolve (vec l) dx f1 = inr kn ->
  length c = length l - 1 ->
  exists fhat rest,
    segment_integrals (widths kn) c = inr fhat
    /\ ravel fhat = zip_with seg_integral (segment_widths kn) c ++ rest
    /\ length (segment_widths kn) = length c
    /\ length (ravel fhat)
       = if np_size dx =? 1 then (length l - 1) * (length l - 1) else length l - 1.
Proof.
  intros R Hc. apply resolve_inr in R. destruct R as (_ & Hs & Hk & _).
  rewrite size_vec in Hs, Hk.
  apply spacing_inr in Hk. destruct Hk as [[x [Hx ->]] | (s & -> & Hl & Hn & Hxp & Hw)].
  - assert (Hm : 1 <= length l - 1) by lia.
    exists (Arr2 (repeat (map (seg_integral x) c) (length l - 1))),
           (concat (repeat (map (seg_integral x) c) (length l - 2))).
    unfold segment_widths, np_size. rewrite Hx. cbn [widths ravel length Nat.eqb].
    rewrite concat_repeat_single, repeat_length, <- Hc, zip_with_repeat_l.
    repeat split.
    + rewrite Hc. apply segment_integrals_rank2; assumption.
    + rewrite Hc. replace (length l - 1) with (S (length l - 2)) by lia. reflexivity.
    + now rewrite length_concat_repeat, length_map.
  - exists (Arr1 (zip_with seg_integral (diff s) c)), [].
    unfold segment_widths, np_size. rewrite Hw. cbn [ravel elems].
    assert (Hd : length (diff s) = length c) by (rewrite length_diff; lia).
    repeat split.
    + now apply segment_integrals_rank1.
    + now rewrite app_nil_r.
    + assumption.
    + rewrite Hl. destruct (length l =? 1) eqn:E; [apply Nat.eqb_eq in E; lia|].
      rewrite zip_with_length, Hd, Nat.min_id. lia.
Qed.

(** ** The running sum *)

Lemma length_running (acc : float) (l : list float) :
  length (running acc l) = length l.
Proof. revert acc; induction l as [|x l IH]; intros acc; simpl; auto. Qed.

Lemma length_cumsum (a : array) : length (cumsum a) = length (ravel a).
Proof.
  unfold cumsum. destruct (ravel a) as [|x t]; simpl; auto.
  now rewrite length_running.
Qed.

Lemma nth_error_running (acc : float) (l : list float) (k : nat) :
  k < length l ->
  nth_error (running acc l) k = Some (fold_left PrimFloat.add (firstn (S k) l) acc).
Proof.
  revert acc k; induction l as [|x l IH]; intros acc k H; simpl in H; [lia|].
  destruct k as [|k].
  - reflexivity.
  - change (running acc (x :: l)) with ((acc + x)%float :: running (acc + x)%float l).
    change (nth_error ((acc + x)%float :: running (acc + x)%float l) (S k))
      with (nth_error (running (acc + x)%float l) k).
    rewrite IH by lia. reflexivity.
Qed.

Lemma nth_error_cumsum (a : array) (k : nat) :
  k < length (ravel a) ->
  nth_error (cumsum a) k = Some (partial_sum (ravel a) (S k)).
Proof.
  unfold cumsum, partial_sum. destruct (ravel a) as [|x t]; simpl; intros H; [lia|].
  destruct k as [|k]; [reflexivity|].
  change (nth_error (x :: running x t) (S k)) with (nth_error (running x t) k).
  rewrite nth_error_running by lia. reflexivity.
Qed.

Lemma partial_sum_app (l r : list float) (k : nat) :
  k <= length l -> partial_sum (l ++ r) k = partial_sum l k.
Proof.
  intros H. unfold partial_sum. rewrite firstn_app.
  replace (k - length l) with 0 by lia. now rewrite app_nil_r.
Qed.

(** ** The assembled output *)

Lemma integrate_inr (fit : fitter) (kn : knots) (fx : ndarray) (f1 : pyval)
      (out : list float) :
  integrate fit kn fx f1 = inr out ->
  exists c fhat,
    fit (xp kn) (data fx) = inr c
    /\ segment_integrals (widths kn) c = inr fhat
    /\ scale PrimFloat.add f1 (0%float :: cumsum fhat) = inr out.
Proof.
  unfold integrate. destruct (fit (xp kn) (data fx)) as [m|c]; [discriminate|].
  intros H. apply bind_inr in H. destruct H as [fhat [H1 H2]]. eauto.
Qed.

(** C5. Whenever the call returns, the initial value is a single number and
    the first element of the output compares equal to it, for a scalar
    spacing and for a spacing sequence alike; it is the same binary64 value
    unless the initial value is the negative zero, which comes out as the
    positive one. *)
Theorem first_is_initial (fit : fitter) (fx : ndarray) (dx f1 : pyval)
        (out : list float) :
  intgrad1 fit fx dx f1 = inr out ->
  exists x y rest,
    elems f1 = [x] /\ out = y :: rest /\ (y =? x)%float = true
    /\ (y = x \/ x = PrimFloat.neg_zero).
Proof.
  unfold intgrad1. intros H. apply bind_inr in H. destruct H as [kn [R I]].
  apply resolve_inr in R. destruct R as (_ & _ & _ & B).
  apply bad_initial_spec in B. destruct B as [x [Hx Hf]].
  apply integrate_inr in I. destruct I as (c & fhat & _ & _ & S).
  rewrite (scale_single _ _ x _ Hx) in S. injection S as <-.
  exists x, (x + 0)%float, (map (PrimFloat.add x) (cumsum fhat)).
  repeat split; [assumption | | apply add_zero_eq].
  apply add_zero_eqb, is_finite_not_nan, Hf.
Qed.

Lemma first_is_initial_witness :
  exists x y rest,
    elems (Scalar 7%float) = [x]
    /\ [7; 8.5; 10.5]%float = y :: rest /\ (y =? x)%float = true
    /\ (y = x \/ x = PrimFloat.neg_zero).
Proof.
  apply (first_is_initial chord_fit (vec [1; 2; 2]%float) (Seq [0; 1; 2]%float)
           (Scalar 7%float) [7; 8.5; 10.5]%float).
  vm_compute. reflexivity.
Defined.

(** The widths in the words of the specification: copies of the scalar, or
    the gaps between consecutive coordinates. *)
Lemma segment_widths_resolved (l : list float) (dx f1 : pyval) (kn : knots) :
  resolve (vec l) dx f1 = inr kn ->
  (forall x, elems dx = [x] -> segment_widths kn = repeat x (length l - 1))
  /\ (np_size dx <> 1 -> segment_widths kn = diff (elems dx)).
Proof.
  intros R. apply resolve_inr in R. destruct R as (_ & _ & Hk & _).
  rewrite size_vec in Hk. apply spacing_inr in Hk.
  destruct Hk as [[x [Hx ->]] | (s & -> & Hl & Hn & _ & Hw)]; split.
  - intros y Hy. rewrite Hx in Hy. injection Hy as <-.
    unfold segment_widths. cbn [widths ravel]. apply concat_repeat_single.
  - intros N. unfold np_size in N. rewrite Hx in N. now contradiction N.
  - intros y Hy. simpl in Hy. subst s. simpl in Hl. congruence.
  - intros _. unfold segment_widths. rewrite Hw. reflexivity.
Qed.

(** C4. For an accepted input and a fit with one piece per gap, the call
    returns; entry 0 of the output is the initial value, and entry k, for
    every k below the number of samples, is the initial value plus the first
    k segment integrals added in ascending order, each segment integral being
    [w*(c3 + w*(c2/2 + w*(c1/3 + w*c0/4)))] for the width [w] of the segment
    (the scalar spacing, or the gap between its two coordinates) and the
    coefficients of its piece. *)
Theorem output_is_running_sum (fit : fitter) (l : list float) (dx f1 : pyval)
        (kn : knots) (c : list piece) :
  resolve (vec l) dx f1 = inr kn ->
  fit (xp kn) l = inr c ->
  length c = length l - 1 ->
  exists x out,
    elems f1 = [x]
    /\ intgrad1 fit (vec l) dx f1 = inr out
    /\ ((forall w, elems dx = [w] -> segment_widths kn = repeat w (length l - 1))
        /\ (np_size dx <> 1 -> segment_widths kn = diff (elems dx)))
    /\ (exists y, nth_error out 0 = Some y /\ (y =? x)%float = true)
    /\ forall k, k < length l ->
         nth_error out k
         = Some (x + partial_sum (zip_with seg_integral (segment_widths kn) c) k)%float.
Proof.
  intros R F Hc.
  destruct (segment_integrals_resolved l dx f1 kn c R Hc)
    as (fhat & rest & Hseg & Hrav & Hw & _).
  pose proof (resolve_inr _ _ _ _ R) as (_ & _ & _ & B).
  apply bad_initial_spec in B. destruct B as [x [Hx Hf]].
  exists x, (map (PrimFloat.add x) (0%float :: cumsum fhat)).
  assert (Hlen : length (zip_with seg_integral (segment_widths kn) c) = length l - 1).
  { rewrite zip_with_length, Hw, Nat.min_id. assumption. }
  split; [assumption|]. split; [|split; [|split]].
  - unfold intgrad1. rewrite R. cbn [bind]. unfold integrate.
    change (data (vec l)) with l. rewrite F, Hseg. cbn [bind].
    apply scale_single, Hx.
  - exact (segment_widths_resolved l dx f1 kn R).
  - exists (x + 0)%float. split; [reflexivity|].
    apply add_zero_eqb, is_finite_not_nan, Hf.
  - intros k Hk. rewrite nth_error_map. destruct k as [|k].
    + reflexivity.
    + change (nth_error (0%float :: cumsum fhat) (S k)) with (nth_error (cumsum fhat) k).
      rewrite nth_error_cumsum by (rewrite Hrav, length_app, Hlen; lia).
      rewrite Hrav, partial_sum_app by (rewrite Hlen; lia). reflexivity.
Qed.

Lemma output_is_running_sum_witness :
  exists x out,
    elems (Seq [2%float]) = [x]
    /\ intgrad1 chord_fit (vec [1; 3; 2]%float) (Seq [0; 1; 3]%float) (Seq [2%float])
       = inr out
    /\ ((forall w, elems (Seq [0; 1; 3]%float) = [w] ->
           segment_widths
             {| xp := [0; 1; 3]%float; widths := Arr1 [1; 2]%float; uniflag := false |}
           = repeat w (length [1; 3; 2]%float - 1))
        /\ (np_size (Seq [0; 1; 3]%float) <> 1 ->
            segment_widths
              {| xp := [0; 1; 3]%float; widths := Arr1 [1; 2]%float; uniflag := false |}
            = diff (elems (Seq [0; 1; 3]%float))))
    /\ (exists y, nth_error out 0 = Some y /\ (y =? x)%float = true)
    /\ forall k, k < length [1; 3; 2]%float ->
         nth_error out k
         = Some (x + partial_sum
                       (zip_with seg_integral
                          (segment_widths
                             {| xp := [0; 1; 3]%float; widths := Arr1 [1; 2]%float;
                                uniflag := false |})
                          (chords [0; 1; 3]%float [1; 3; 2]%float)) k)%float.
Proof.
  apply (output_is_running_sum chord_fit [1; 3; 2]%float (Seq [0; 1; 3]%float)
           (Seq [2%float])
           {| xp := [0; 1; 3]%float; widths := Arr1 [1; 2]%float; uniflag := false |}
           (chords [0; 1; 3]%float [1; 3; 2]%float)).
  - vm_compute. reflexivity.
  - vm_compute. reflexivity.
  - reflexivity.
Defined.

(** ** The length of the output *)

Lemma chords_length (x y : list float) :
  length x = length y -> length (chords x y) = length x - 1.
Proof.
  revert y; induction x as [|x0 [|x1 x] IH]; intros [|y0 [|y1 y]] H;
    simpl in H; try discriminate; try reflexivity.
  change (chords (x0 :: x1 :: x) (y0 :: y1 :: y))
    with ({| k0 := 0; k1 := 0; k2 := ((y1 - y0) / (x1 - x0))%float; k3 := y0 |}
            :: chords (x1 :: x) (y1 :: y)).
  cbn [length]. rewrite IH by (simpl; lia). simpl. lia.
Qed.

Lemma chord_fit_shape : shape_contract chord_fit.
Proof.
  intros x y c. unfold chord_fit.
  destruct (length x =? length y) eqn:E; [|discriminate].
  apply Nat.eqb_eq in E. intros H. injection H as <-. now apply chords_length.
Qed.

Lemma resolved_xp_length (l : list float) (dx f1 : pyval) (kn : knots) :
  resolve (vec l) dx f1 = inr kn -> length (xp kn) = length l.
Proof.
  intros R. apply resolve_inr in R. destruct R as (_ & _ & Hk & _).
  rewrite size_vec in Hk. apply spacing_inr in Hk.
  destruct Hk as [[x [_ ->]] | (s & _ & Hl & _ & -> & _)].
  - apply length_grid.
  - assumption.
Qed.

(** The length of what the call returns, by the form of the spacing. *)
Lemma output_length (fit : fitter) (l : list float) (dx f1 : pyval) (out : list float) :
  shape_contract fit ->
  intgrad1 fit (vec l) dx f1 = inr out ->
  length out
  = if np_size dx =? 1 then (length l - 1) * (length l - 1) + 1 else length l.
Proof.
  intros Hfit H. unfold intgrad1 in H.
  apply bind_inr in H. destruct H as [kn [R I]].
  apply integrate_inr in I. destruct I as (c & fhat & F & Hseg & S).
  assert (Hc : length c = length l - 1).
  { rewrite (Hfit _ _ _ F). now rewrite (resolved_xp_length _ _ _ _ R). }
  destruct (segment_integrals_resolved l dx f1 kn c R Hc)
    as (fhat' & rest & Hseg' & _ & _ & Hlen).
  rewrite Hseg in Hseg'. injection Hseg' as <-.
  pose proof (resolve_inr _ _ _ _ R) as (_ & Hs & _ & B).
  rewrite size_vec in Hs.
  apply bad_initial_spec in B. destruct B as [x [Hx _]].
  rewrite (scale_single _ _ x _ Hx) in S. injection S as <-.
  cbn [length]. rewrite length_map. rewrite length_cumsum, Hlen.
  destruct (np_size dx =? 1); lia.
Qed.

(** C2, on the code.  With a scalar spacing the returned sequence has
    (n-1)^2 + 1 elements for a derivative of n samples, not n: the widths of
    line 70 are a rank-2 column and line 90 broadcasts them against the
    rank-1 coefficient columns. *)
Theorem scalar_spacing_output_length (fit : fitter) (l : list float) (dx f1 : pyval)
        (out : list float) :
  shape_contract fit ->
  np_size dx = 1 ->
  intgrad1 fit (vec l) dx f1 = inr out ->
  length out = (length l - 1) * (length l - 1) + 1.
Proof.
  intros Hfit Hdx H. rewrite (output_length fit l dx f1 out Hfit H).
  now rewrite Hdx.
Qed.

Lemma scalar_spacing_output_length_witness :
  length [0; 1; 2; 3; 4]%float = (length [1; 1; 1]%float - 1) * (length [1; 1; 1]%float - 1) + 1.
Proof.
  apply (scalar_spacing_output_length chord_fit [1; 1; 1]%float (Scalar 1%float)
           (Scalar 0%float) [0; 1; 2; 3; 4]%float).
  - exact chord_fit_shape.
  - reflexivity.
  - vm_compute. reflexivity.
Defined.

(** With a spacing sequence of n coordinates the output is as long as the
    derivative. *)
Lemma sequence_spacing_output_length (fit : fitter) (l s : list float) (f1 : pyval)
      (out : list float) :
  shape_contract fit ->
  length s = length l ->
  intgrad1 fit (vec l) (Seq s) f1 = inr out ->
  length out = length l.
Proof.
  intros Hfit Hl H. rewrite (output_length fit l (Seq s) f1 out Hfit H).
  destruct (np_size (Seq s) =? 1) eqn:E; [|reflexivity].
  apply Nat.eqb_eq in E. unfold np_size in E. simpl in E.
  unfold intgrad1 in H. apply bind_inr in H. destruct H as [kn [R _]].
  apply resolve_inr in R. destruct R as (_ & Hs & _). rewrite size_vec in Hs. lia.
Qed.

(** C1, on the code.  For three samples or more, the call with the scalar
    spacing dx and the call with the coordinates [0, dx, ..., (n-1)dx] do
    not return the same sequence: the first has (n-1)^2 + 1 elements, the
    second n. *)
Theorem scalar_and_grid_spacing_differ (fit : fitter) (l : list float) (x : float)
        (f1 : pyval) (a b : list float) :
  shape_contract fit ->
  3 <= length l ->
  intgrad1 fit (vec l) (Scalar x) f1 = inr a ->
  intgrad1 fit (vec l) (Seq (grid (length l) x)) f1 = inr b ->
  length a = (length l - 1) * (length l - 1) + 1 /\ length b = length l /\ a <> b.
Proof.
  intros Hfit Hn Ha Hb.
  assert (La := output_length fit l (Scalar x) f1 a Hfit Ha). cbn [np_size elems length Nat.eqb] in La.
  assert (Lb := sequence_spacing_output_length fit l (grid (length l) x) f1 b Hfit
                  (length_grid _ _) Hb).
  repeat split; try assumption.
  intros E. subst b. rewrite La in Lb. nia.
Qed.

Lemma scalar_and_grid_spacing_differ_witness :
  length [0; 1; 2; 3; 4]%float = (length [1; 1; 1]%float - 1) * (length [1; 1; 1]%float - 1) + 1
  /\ length [0; 1; 2]%float = length [1; 1; 1]%float
  /\ [0; 1; 2; 3; 4]%float <> [0; 1; 2]%float.
Proof.
  apply (scalar_and_grid_spacing_differ chord_fit [1; 1; 1]%float 1%float (Scalar 0%float)
           [0; 1; 2; 3; 4]%float [0; 1; 2]%float).
  - exact chord_fit_shape.
  - cbv; lia.
  - vm_compute. reflexivity.
  - vm_compute. reflexivity.
Defined.

(** C3, on the code.  Five samples of the constant 1 with spacing 1 and
    initial value 0, fitted by the constant pieces, give the seventeen
    values 0, 1, ..., 16 and not [0, 1, 2, 3, 4]. *)
Theorem constant_ones_output (fit : fitter) :
  fit [0; 1; 2; 3; 4]%float [1; 1; 1; 1; 1]%float
  = inr (repeat {| k0 := 0; k1 := 0; k2 := 0; k3 := 1 |} 4) ->
  intgrad1 fit (vec [1; 1; 1; 1; 1]%float) (Scalar 1%float) (Scalar 0%float)
  = inr (map float_of_nat (seq 0 17)).
Proof.
  intros H. unfold intgrad1.
  replace (resolve (vec [1; 1; 1; 1; 1]%float) (Scalar 1%float) (Scalar 0%float))
    with (@inr exn knots
            {| xp := [0; 1; 2; 3; 4]%float;
               widths := Arr2 [[1]; [1]; [1]; [1]]%float; uniflag := true |})
    by (vm_compute; reflexivity).
  cbn [bind]. unfold integrate. cbn [xp widths data vec].
  rewrite H. vm_compute. reflexivity.
Qed.

Lemma constant_ones_output_witness :
  intgrad1 chord_fit (vec [1; 1; 1; 1; 1]%float) (Scalar 1%float) (Scalar 0%float)
  = inr (map float_of_nat (seq 0 17)).
Proof.
  apply (constant_ones_output chord_fit). vm_compute. reflexivity.
Defined.

(** ** The objects of the caller *)

Module StoreFacts.
Import Store.

Lemma unchanged_refl (h : store) : unchanged h h.
Proof. intros p c H; exact H. Qed.

Lemma unchanged_trans (h1 h2 h3 : store) :
  unchanged h1 h2 -> unchanged h2 h3 -> unchanged h1 h3.
Proof. intros H12 H23 p c H. apply H23, H12, H. Qed.

Lemma unchanged_app (h t : store) : unchanged h (h ++ t).
Proof.
  intros p c H. rewrite nth_error_app1; [exact H|].
  apply nth_error_Some. congruence.
Qed.

Lemma preserving_mret {A : Type} (a : A) : preserving (mret a).
Proof. intros h. apply unchanged_refl. Qed.

Lemma preserving_throw {A : Type} (e : exn) : preserving (@throw A e).
Proof. intros h. apply unchanged_refl. Qed.

Lemma preserving_of_result {A : Type} (r : result A) : preserving (of_result r).
Proof. intros h. apply unchanged_refl. Qed.

Lemma preserving_new (c : cell) : preserving (new c).
Proof. intros h. apply unchanged_app. Qed.

Lemma preserving_get (p : loc) : preserving (get p).
Proof.
  intros h. unfold get. destruct (nth_error h p); apply unchanged_refl.
Qed.

Lemma preserving_mbind {A B : Type} (m : M A) (k : A -> M B) :
  preserving m -> (forall a, preserving (k a)) -> preserving (mbind m k).
Proof.
  intros Hm Hk h. unfold mbind. specialize (Hm h).
  destruct (m h) as [h' [e|a]]; simpl in *; [exact Hm|].
  eapply unchanged_trans; [exact Hm | apply Hk].
Qed.

Lemma preserving_get_nd (p : loc) : preserving (get_nd p).
Proof.
  apply preserving_mbind; [apply preserving_get|].
  intros [a|a|c]; (apply preserving_mret || apply preserving_throw).
Qed.

Lemma preserving_load (v : value) : preserving (load v).
Proof.
  destruct v as [x|p]; simpl; [apply preserving_mret|].
  apply preserving_mbind; [apply preserving_get_nd | intros; apply preserving_mret].
Qed.

(** An update in place is not of that kind: the property says something. *)
Lemma put_not_preserving :
  ~ preserving (put 0 (Nd (vec [1%float]))).
Proof.
  intros H. specialize (H [Nd (vec [0%float])] 0 (Nd (vec [0%float])) eq_refl).
  simpl in H. discriminate.
Qed.

Ltac preserve :=
  repeat first
    [ apply preserving_mret | apply preserving_throw | apply preserving_of_result
    | apply preserving_new | apply preserving_get | apply preserving_get_nd
    | apply preserving_load
    | apply preserving_mbind; [| intro]
    | match goal with
      | |- preserving (if ?b then _ else _) => destruct b
      | |- preserving (match ?x with _ => _ end) => destruct x
      end ].

Lemma preserving_intgrad1 (fit : fitter) (fx : loc) (dx f1 : value) :
  preserving (Store.intgrad1 fit fx dx f1).
Proof. unfold Store.intgrad1. preserve. Qed.

Lemma mbind_inr {A B : Type} (m : M A) (k : A -> M B) (h h' : store) (a : A) :
  m h = (h', inr a) -> mbind m k h = k a h'.
Proof. intros H. unfold mbind. now rewrite H. Qed.

Lemma get_at (h : store) (p : loc) (c : cell) :
  nth_error h p = Some c -> get p h = (h, inr c).
Proof. intros H. unfold get. now rewrite H. Qed.

Lemma get_nd_at (h : store) (p : loc) (a : ndarray) :
  nth_error h p = Some (Nd a) -> get_nd p h = (h, inr a).
Proof.
  intros H. unfold get_nd. rewrite (mbind_inr _ _ _ _ _ (get_at h p _ H)). reflexivity.
Qed.

Lemma load_inv (v : value) (h : store) (d : pyval) :
  load v h = (h, inr d) ->
  match v with
  | VNum x => d = Scalar x
  | VRef p => exists a, nth_error h p = Some (Nd a) /\ d = Seq (data a)
  end.
Proof.
  destruct v as [x|p]; simpl.
  - unfold mret. intros H. now inversion H.
  - unfold mbind, get_nd, mbind, get.
    destruct (nth_error h p) as [[a|a|c]|]; simpl; intros H; inversion H.
    eauto.
Qed.

Lemma load_unchanged (v : value) (h h' : store) (d : pyval) :
  load v h = (h, inr d) -> unchanged h h' -> load v h' = (h', inr d).
Proof.
  intros H U. apply load_inv in H. destruct v as [x|p].
  - subst d. reflexivity.
  - destruct H as [a [Ha ->]]. simpl.
    rewrite (mbind_inr _ _ _ _ _ (get_nd_at h' p _ (U p _ Ha))).
    reflexivity.
Qed.

Lemma nth_error_last (h : store) (c : cell) :
  nth_error (h ++ [c]) (length h) = Some c.
Proof. rewrite nth_error_app2, Nat.sub_diag by lia. reflexivity. Qed.

(** Lines 69 and 73: the cell that [xp] names holds the coordinates. *)
Lemma xp_bound (h : store) (dx : value) (d : pyval) (nx : nat) (k : knots) :
  load dx h = (h, inr d) ->
  spacing nx d = inr k ->
  exists t q x,
    match dx with
    | VNum _ => new (Nd (vec (xp k)))
    | VRef p => if np_size d =? 1 then new (Nd (vec (xp k))) else mret p
    end h = (h ++ t, inr q)
    /\ nth_error (h ++ t) q = Some (Nd x) /\ data x = xp k.
Proof.
  intros Hdx Hk.
  assert (N : exists t q x, new (Nd (vec (xp k))) h = (h ++ t, inr q)
              /\ nth_error (h ++ t) q = Some (Nd x) /\ data x = xp k).
  { exists [Nd (vec (xp k))], (length h), (vec (xp k)).
    repeat split. apply nth_error_last. }
  apply load_inv in Hdx. destruct dx as [y|p]; [exact N|].
  destruct (np_size d =? 1) eqn:E; [exact N|].
  apply Nat.eqb_neq in E. destruct Hdx as [a [Ha ->]].
  exists [], p, a. rewrite app_nil_r. repeat split; [assumption|].
  apply spacing_inr in Hk.
  destruct Hk as [[x [Hx _]] | (s & Hs & _ & _ & Hxp & _)].
  - unfold np_size in E. rewrite Hx in E. now contradiction E.
  - injection Hs as Hs. congruence.
Qed.

End StoreFacts.

(** C10. The call leaves its inputs as they are: whether it returns or
    raises, every object the store held before the call, the derivative
    array and a spacing array among them, holds the same elements after
    it; the names the function rebinds are bound to new objects. *)
Theorem inputs_not_mutated (fit : fitter) (fx : Store.loc) (dx f1 : Store.value)
        (h h' : Store.store) (r : result Store.loc) :
  Store.intgrad1 fit fx dx f1 h = (h', r) ->
  forall p c, nth_error h p = Some c -> nth_error h' p = Some c.
Proof.
  intros H. pose proof (StoreFacts.preserving_intgrad1 fit fx dx f1 h) as P.
  rewrite H in P. exact P.
Qed.

Lemma inputs_not_mutated_witness :
  nth_error
    [Store.Nd (vec [1; 1; 1]%float); Store.Nd (vec [0; 1; 2]%float);
     Store.Grid (Arr1 [1; 1]%float);
     Store.Coefs (chords [0; 1; 2]%float [1; 1; 1]%float);
     Store.Grid (Arr1 [1; 1]%float); Store.Nd (vec [0; 1; 2]%float)] 1
  = Some (Store.Nd (vec [0; 1; 2]%float)).
Proof.
  apply (inputs_not_mutated chord_fit 0 (Store.VRef 1) (Store.VNum 0%float)
           [Store.Nd (vec [1; 1; 1]%float); Store.Nd (vec [0; 1; 2]%float)]
           _ (inr 5)).
  - vm_compute. reflexivity.
  - reflexivity.
Defined.

(** The store reading and the functional reading are one function: on the
    contents of its inputs the call on the store raises what [intgrad1]
    raises, and returns a new array holding what [intgrad1] returns. *)
Lemma store_call_agrees (fit : fitter) (h : Store.store) (fx : Store.loc)
    (dx f1 : Store.value) (a : ndarray) (d i : pyval) :
  nth_error h fx = Some (Store.Nd a) ->
  Store.load dx h = (h, inr d) ->
  Store.load f1 h = (h, inr i) ->
  exists h' r,
    Store.intgrad1 fit fx dx f1 h = (h', r)
    /\ match intgrad1 fit a d i, r with
       | inl e, inl e' => e = e'
       | inr out, inr p => nth_error h' p = Some (Store.Nd (vec out))
       | _, _ => False
       end.
Proof.
  intros Hfx Hdx Hf1.
  unfold Store.intgrad1, intgrad1, resolve.
  rewrite (StoreFacts.mbind_inr _ _ _ _ _ (StoreFacts.get_nd_at h fx a Hfx)).
  destruct (1 <? ndim a); [do 2 eexists; split; reflexivity|].
  destruct (size a <? 2); [do 2 eexists; split; reflexivity|].
  rewrite (StoreFacts.mbind_inr _ _ _ _ _ Hdx).
  destruct (spacing (size a) d) as [e|k] eqn:Hk;
    [do 2 eexists; split; reflexivity|].
  rewrite (StoreFacts.mbind_inr _ _ h h k eq_refl).
  destruct (StoreFacts.xp_bound h dx d (size a) k Hdx Hk) as (t & q & x & Hxp & Hq & Hx).
  rewrite (StoreFacts.mbind_inr _ _ _ _ _ Hxp).
  set (h1 := h ++ t) in *.
  assert (U1 : Store.unchanged h h1) by apply StoreFacts.unchanged_app.
  rewrite (StoreFacts.mbind_inr _ _ h1 (h1 ++ [Store.Grid (widths k)]) (length h1) eq_refl).
  set (h2 := h1 ++ [Store.Grid (widths k)]).
  assert (U12 : Store.unchanged h1 h2) by apply StoreFacts.unchanged_app.
  assert (U2 : Store.unchanged h h2) by (eapply StoreFacts.unchanged_trans; eassumption).
  rewrite (StoreFacts.mbind_inr _ _ _ _ _ (StoreFacts.load_unchanged f1 h h2 i Hf1 U2)).
  cbn [bind].
  destruct (bad_initial i) as [eb|b]; [do 2 eexists; split; reflexivity|].
  rewrite (StoreFacts.mbind_inr _ _ h2 h2 b eq_refl).
  destruct b; [do 2 eexists; split; reflexivity|].
  unfold integrate. cbn [bind ret].
  rewrite (StoreFacts.mbind_inr _ _ _ _ _ (StoreFacts.get_nd_at h2 q x (U12 _ _ Hq))).
  rewrite (StoreFacts.mbind_inr _ _ _ _ _ (StoreFacts.get_nd_at h2 fx a (U2 _ _ Hfx))).
  rewrite Hx.
  destruct (fit (xp k) (data a)) as [m|c]; [do 2 eexists; split; reflexivity|].
  rewrite (StoreFacts.mbind_inr _ _ h2 (h2 ++ [Store.Coefs c]) (length h2) eq_refl).
  assert (Hw : nth_error (h2 ++ [Store.Coefs c]) (length h1) = Some (Store.Grid (widths k))).
  { apply StoreFacts.unchanged_app. apply StoreFacts.nth_error_last. }
  rewrite (StoreFacts.mbind_inr _ _ _ _ _ (StoreFacts.get_at _ _ _ Hw)).
  destruct (segment_integrals (widths k) c) as [e|fhat];
    [do 2 eexists; split; reflexivity|].
  rewrite (StoreFacts.mbind_inr _ _ (h2 ++ [Store.Coefs c]) (h2 ++ [Store.Coefs c]) fhat eq_refl).
  rewrite (StoreFacts.mbind_inr _ _ (h2 ++ [Store.Coefs c]) ((h2 ++ [Store.Coefs c]) ++ [Store.Grid fhat])
             (length (h2 ++ [Store.Coefs c])) eq_refl).
  cbn [bind].
  destruct (scale PrimFloat.add i (0%float :: cumsum fhat)) as [e|out];
    [do 2 eexists; split; reflexivity|].
  rewrite (StoreFacts.mbind_inr _ _ ((h2 ++ [Store.Coefs c]) ++ [Store.Grid fhat])
             ((h2 ++ [Store.Coefs c]) ++ [Store.Grid fhat]) out eq_refl).
  do 2 eexists; split; [reflexivity|]. apply StoreFacts.nth_error_last.
Qed.

(** ** The function at work *)

Example sequence_spacing_ones :
  intgrad1 chord_fit (vec [1; 1; 1; 1; 1]%float) (Seq [0; 1; 2; 3; 4]%float)
           (Scalar 0%float)
  = inr [0; 1; 2; 3; 4]%float.
Proof. vm_compute. reflexivity. Qed.

Example two_samples_scalar_spacing :
  intgrad1 chord_fit (vec [1; 3]%float) (Scalar 2%float) (Scalar 10%float)
  = inr [10; 14]%float.
Proof. vm_compute. reflexivity. Qed.

Example repeated_coordinate_refused :
  intgrad1 chord_fit (vec [1; 1; 1; 1]%float) (Seq [0; 1; 1; 3]%float) (Scalar 0%float)
  = inl (Exception msg_not_monotonic).
Proof. vm_compute. reflexivity. Qed.

Example empty_initial_refused_by_numpy :
  intgrad1 chord_fit (vec [1; 2]%float) (Seq [0; 1]%float) (Seq [])
  = inl (External msg_empty_truth).
Proof. vm_compute. reflexivity. Qed.

Example infinite_initial_refused :
  intgrad1 chord_fit (vec [1; 1]%float) (Scalar 1%float) (Scalar infinity)
  = inl (Exception msg_bad_initial).
Proof. vm_compute. reflexivity. Qed.

Example store_after_call :
  Store.intgrad1 chord_fit 0 (Store.VRef 1) (Store.VNum 0%float)
    [Store.Nd (vec [1; 1; 1]%float); Store.Nd (vec [0; 1; 2]%float)]
  = ([Store.Nd (vec [1; 1; 1]%float); Store.Nd (vec [0; 1; 2]%float);
      Store.Grid (Arr1 [1; 1]%float);
      Store.Coefs (chords [0; 1; 2]%float [1; 1; 1]%float);
      Store.Grid (Arr1 [1; 1]%float); Store.Nd (vec [0; 1; 2]%float)],
     inr 5).
Proof. vm_compute. reflexivity. Qed.

(** ** Which errors, and when *)

Lemma spacing_error (nx : nat) (dx : pyval) (e : exn) :
  spacing nx dx = inl e ->
  e = Exception msg_not_monotonic \/ e = Exception msg_bad_spacing.
Proof.
  intros H. destruct (Nat.eq_dec (np_size dx) 1) as [E|E].
  - destruct (single_elem dx E) as [x Hx].
    rewrite (spacing_single nx dx x Hx) in H. discriminate.
  - destruct (Nat.eq_dec (np_size dx) nx) as [E'|E'].
    + destruct dx as [y|s]; [now contradiction E|].
      unfold np_size in E, E'. simpl in E, E'.
      rewrite spacing_sequence in H by congruence.
      destruct (any_nonpositive (diff s)); [|discriminate].
      left. now inversion H.
    + rewrite spacing_refused in H by assumption. right. now inversion H.
Qed.

(** What lines 59-84 can raise: one of the five exceptions of the
    function, or numpy's error on line 83 for an initial value with no
    element, which the earlier checks were passed to reach. *)
Lemma resolve_error (fx : ndarray) (dx f1 : pyval) (e : exn) :
  resolve fx dx f1 = inl e ->
  (exists m, e = Exception m /\ In m own_messages)
  \/ (e = External msg_empty_truth /\ elems f1 = []
      /\ 2 <= size fx /\ exists k, spacing (size fx) dx = inr k).
Proof.
  unfold resolve, own_messages.
  destruct (1 <? ndim fx);
    [intros H; inversion H; left; eexists; split; [reflexivity|simpl; tauto]|].
  destruct (size fx <? 2) eqn:E2;
    [intros H; inversion H; left; eexists; split; [reflexivity|simpl; tauto]|].
  apply Nat.ltb_ge in E2.
  destruct (spacing (size fx) dx) as [e'|k] eqn:S; simpl.
  - intros H; inversion H; subst e'. left.
    destruct (spacing_error _ _ _ S) as [-> | ->];
      eexists; (split; [reflexivity|simpl; tauto]).
  - destruct (bad_initial f1) as [eb|[|]] eqn:B; simpl; intros H; inversion H.
    + subst eb. apply bad_initial_error in B. destruct B as [-> E].
      right. repeat split; eauto.
    + left. eexists; split; [reflexivity|simpl; tauto].
Qed.

(** X1. The only exceptions of its own that the call can raise are the
    five of lines 60, 64, 78, 82 and 84. *)
Theorem own_exceptions_are_five (fit : fitter) (fx : ndarray) (dx f1 : pyval)
        (m : string) :
  intgrad1 fit fx dx f1 = inl (Exception m) -> In m own_messages.
Proof.
  unfold intgrad1. intros H. apply bind_inl in H.
  destruct H as [H | [k [_ H]]].
  - apply resolve_error in H. destruct H as [[m' [E Hin]] | [E _]].
    + injection E as ->. exact Hin.
    + discriminate.
  - apply integrate_error in H. destruct H as [m' H]. discriminate.
Qed.

Lemma own_exceptions_are_five_witness :
  In msg_bad_spacing own_messages.
Proof.
  apply (own_exceptions_are_five chord_fit (vec [1; 2; 4]%float) (Seq [0; 1]%float)
           (Scalar 0%float) msg_bad_spacing).
  vm_compute. reflexivity.
Defined.

(** X2. With a fitter that returns one piece per gap, the arithmetic of
    lines 90-91 never fails.  An exception that is not the function's own
    comes out in two cases only: validation passed and the fitter raised,
    and it is the fitter's exception; or the derivative and the spacing
    passed their checks and the initial value has no element, and it is
    numpy's refusal of the truth value of an empty array on line 83. *)
Theorem external_error_iff_fitter_failed (fit : fitter) (l : list float)
        (dx f1 : pyval) (m : string) :
  shape_contract fit ->
  (intgrad1 fit (vec l) dx f1 = inl (External m)
   <-> (exists kn, resolve (vec l) dx f1 = inr kn /\ fit (xp kn) l = inl m)
       \/ (2 <= length l /\ (exists k, spacing (length l) dx = inr k)
           /\ elems f1 = [] /\ m = msg_empty_truth)).
Proof.
  intros Hfit. unfold intgrad1. split.
  - intros H. apply bind_inl in H. destruct H as [H | [kn [R H]]].
    + right. apply resolve_error in H.
      destruct H as [[m' [E _]] | (E & Ef & Hs & Hk)]; [discriminate|].
      rewrite size_vec in Hs, Hk. injection E as ->. auto.
    + left. exists kn. split; [assumption|].
      unfold integrate in H. change (data (vec l)) with l in H.
      destruct (fit (xp kn) l) as [m'|c] eqn:F.
      * now inversion H.
      * exfalso.
        assert (Hc : length c = length l - 1).
        { rewrite (Hfit _ _ _ F). now rewrite (resolved_xp_length _ _ _ _ R). }
        destruct (segment_integrals_resolved l dx f1 kn c R Hc)
          as (fhat & rest & Hseg & _).
        rewrite Hseg in H. cbn [bind] in H.
        pose proof (resolve_inr _ _ _ _ R) as (_ & _ & _ & B).
        apply bad_initial_spec in B. destruct B as [x [Hx _]].
        rewrite (scale_single _ _ x _ Hx) in H. discriminate.
  - intros [[kn [R F]] | (Hs & [k Hk] & Ef & ->)].
    + rewrite R. cbn [bind]. unfold integrate.
      change (data (vec l)) with l. now rewrite F.
    + rewrite resolve_checked by (rewrite ?size_vec; (reflexivity || assumption)).
      rewrite size_vec, Hk. cbn [bind].
      now rewrite (bad_initial_empty f1 Ef).
Qed.

Lemma external_error_iff_fitter_failed_witness :
  intgrad1 chord_fit (vec [1; 2]%float) (Seq [0; 1]%float) (Seq [])
  = inl (External msg_empty_truth)
  <-> (exists kn,
         resolve (vec [1; 2]%float) (Seq [0; 1]%float) (Seq []) = inr kn
         /\ chord_fit (xp kn) [1; 2]%float = inl msg_empty_truth)
      \/ (2 <= length [1; 2]%float
          /\ (exists k, spacing (length [1; 2]%float) (Seq [0; 1]%float) = inr k)
          /\ elems (Seq []) = [] /\ msg_empty_truth = msg_empty_truth).
Proof.
  apply (external_error_iff_fitter_failed chord_fit [1; 2]%float (Seq [0; 1]%float)
           (Seq []) msg_empty_truth).
  exact chord_fit_shape.
Defined.

Lemma own_exception_from_resolve (fit : fitter) (fx : ndarray) (dx f1 : pyval)
      (m : string) :
  intgrad1 fit fx dx f1 = inl (Exception m) <-> resolve fx dx f1 = inl (Exception m).
Proof.
  unfold intgrad1. split.
  - intros H. apply bind_inl in H. destruct H as [H | [k [_ H]]]; [assumption|].
    apply integrate_error in H. destruct H as [m' H]. discriminate.
  - intros H. now rewrite H.
Qed.

(** X3. Whether the call raises one of its own exceptions, and which, is
    settled by the shape of the derivative, the spacing and the initial
    value: neither the derivative samples nor the fitter have a say, so NaN
    and infinite samples are handed on to the fitter. *)
Theorem own_exception_depends_on_shape (fit fit' : fitter) (fx fx' : ndarray)
        (dx f1 : pyval) (m : string) :
  shape fx = shape fx' ->
  (intgrad1 fit fx dx f1 = inl (Exception m)
   <-> intgrad1 fit' fx' dx f1 = inl (Exception m)).
Proof.
  intros Hs. rewrite !own_exception_from_resolve.
  unfold resolve, ndim, size. rewrite Hs. reflexivity.
Qed.

Lemma own_exception_depends_on_shape_witness :
  intgrad1 chord_fit (vec [1; 2; 3]%float) (Seq [0; 2; 1]%float) (Scalar 0%float)
  = inl (Exception msg_not_monotonic)
  <-> intgrad1 (fun _ _ => inl "unused") (vec [nan; infinity; nan]%float)
        (Seq [0; 2; 1]%float) (Scalar 0%float)
      = inl (Exception msg_not_monotonic).
Proof.
  apply (own_exception_depends_on_shape chord_fit (fun _ _ => inl "unused")
           (vec [1; 2; 3]%float) (vec [nan; infinity; nan]%float)).
  reflexivity.
Defined.

(** X4. A scalar spacing is not validated: whatever its value (zero,
    negative, NaN), the coordinates [i*dx] and the widths are built from it,
    and the call never raises the monotonicity or the spacing error. *)
Theorem scalar_spacing_not_validated (fx : ndarray) (dx f1 : pyval) (x : float) :
  ndim fx = 1 -> 2 <= size fx -> elems dx = [x] ->
  (single_finite f1 ->
   resolve fx dx f1
   = inr {| xp := grid (size fx) x; widths := Arr2 (repeat [x] (size fx - 1));
            uniflag := true |})
  /\ (forall (fit : fitter) (e : exn),
        intgrad1 fit fx dx f1 = inl e -> ~ MonotonicityError e /\ ~ SpacingError e).
Proof.
  intros Hd Hs Hx.
  assert (R : resolve fx dx f1
              = (b <- bad_initial f1 ;;
                 if b then raise (Exception msg_bad_initial)
                 else ret {| xp := grid (size fx) x;
                             widths := Arr2 (repeat [x] (size fx - 1));
                             uniflag := true |})).
  { rewrite resolve_checked by assumption.
    now rewrite (spacing_single _ _ _ Hx). }
  split.
  - intros Hf. apply bad_initial_spec in Hf. now rewrite R, Hf.
  - intros fit e H. unfold intgrad1 in H. rewrite R in H.
    unfold MonotonicityError, SpacingError.
    destruct (bad_initial f1) as [eb|[|]] eqn:B; simpl in H.
    + apply bad_initial_error in B. destruct B as [-> _].
      inversion H. split; discriminate.
    + inversion H. split; discriminate.
    + apply integrate_error in H. destruct H as [m ->]. split; discriminate.
Qed.

Lemma scalar_spacing_not_validated_witness :
  (single_finite (Scalar 0%float) ->
   resolve (vec [1; 2; 3]%float) (Scalar (-1)%float) (Scalar 0%float)
   = inr {| xp := grid (size (vec [1; 2; 3]%float)) (-1)%float;
            widths := Arr2 (repeat [(-1)%float] (size (vec [1; 2; 3]%float) - 1));
            uniflag := true |})
  /\ (forall (fit : fitter) (e : exn),
        intgrad1 fit (vec [1; 2; 3]%float) (Scalar (-1)%float) (Scalar 0%float) = inl e ->
        ~ MonotonicityError e /\ ~ SpacingError e).
Proof.
  apply (scalar_spacing_not_validated (vec [1; 2; 3]%float) (Scalar (-1)%float)
           (Scalar 0%float) (-1)%float).
  - reflexivity.
  - cbv; lia.
  - reflexivity.
Defined.

(** ** NaN among the coordinates *)

Lemma is_nan_true (x : float) : PrimFloat.is_nan x = true -> Prim2SF x = S754_nan.
Proof.
  unfold PrimFloat.is_nan. rewrite eqb_spec. intros H.
  destruct (Prim2SF x) as [b|b| |b m e] eqn:E; try reflexivity; exfalso.
  - rewrite (SFeqb_refl (S754_zero b)) in H by discriminate. discriminate.
  - rewrite (SFeqb_refl (S754_infinity b)) in H by discriminate. discriminate.
  - rewrite (SFeqb_refl (S754_finite b m e)) in H by discriminate. discriminate.
Qed.

Lemma sub_nan (x y : float) :
  PrimFloat.is_nan x = true \/ PrimFloat.is_nan y = true ->
  Prim2SF (y - x)%float = S754_nan.
Proof.
  intros H. rewrite sub_spec. unfold SF64sub, SFsub.
  destruct H as [H|H]; apply is_nan_true in H; rewrite H.
  - destruct (Prim2SF y); reflexivity.
  - reflexivity.
Qed.

Lemma leb_nan (d z : float) : Prim2SF d = S754_nan -> (d <=? z)%float = false.
Proof. intros H. rewrite leb_spec, H. reflexivity. Qed.

(** X5. NaN coordinates slip through the monotonicity check: a difference
    with a NaN in it is a NaN, and a NaN is not [<= 0].  A spacing sequence
    in which every pair of neighbours has a NaN passes validation and is
    handed to the fitter as it is, whatever its other entries are. *)
Theorem nan_coordinates_pass (fx : ndarray) (s : list float) (f1 : pyval) :
  ndim fx = 1 -> 2 <= size fx -> length s = size fx ->
  nan_in_every_step s -> single_finite f1 ->
  ~ has_nonpositive_step s
  /\ exists kn, resolve fx (Seq s) f1 = inr kn /\ xp kn = s.
Proof.
  intros Hd Hs Hl Hn Hf.
  assert (N : ~ has_nonpositive_step s).
  { intros [i [Hi Hle]]. rewrite leb_nan in Hle; [discriminate|].
    apply sub_nan. exact (Hn i Hi). }
  split; [exact N|].
  rewrite resolve_checked by assumption.
  rewrite spacing_sequence by (assumption || lia).
  destruct (any_nonpositive (diff s)) eqn:A.
  - exfalso. apply N. now apply any_nonpositive_step.
  - apply bad_initial_spec in Hf. cbn [bind ret]. rewrite Hf.
    eexists. split; reflexivity.
Qed.

Lemma nan_coordinates_pass_witness :
  ~ has_nonpositive_step [0; nan; (-5)]%float
  /\ exists kn,
      resolve (vec [1; 2; 3]%float) (Seq [0; nan; (-5)]%float) (Scalar 0%float) = inr kn
      /\ xp kn = [0; nan; (-5)]%float.
Proof.
  apply (nan_coordinates_pass (vec [1; 2; 3]%float) [0; nan; (-5)]%float (Scalar 0%float)).
  - reflexivity.
  - cbv; lia.
  - reflexivity.
  - intros [|[|i]] Hi; simpl in Hi; [right | left | lia]; reflexivity.
  - exists 0%float. split; reflexivity.
Defined.

(** X6. The initial value is looked at last: the call raises the error of
    line 84 exactly when the derivative is a vector of two samples or more,
    the spacing has been resolved without error, and the initial value has
    an element and is not a single finite number. *)
Theorem initial_checked_last (fit : fitter) (fx : ndarray) (dx f1 : pyval) :
  intgrad1 fit fx dx f1 = inl (Exception msg_bad_initial)
  <-> (ndim fx = 1 /\ 2 <= size fx
       /\ (exists k, spacing (size fx) dx = inr k)
       /\ elems f1 <> [] /\ ~ single_finite f1).
Proof.
  rewrite own_exception_from_resolve. split.
  - unfold resolve.
    destruct (1 <? ndim fx) eqn:E1; [discriminate|].
    destruct (size fx <? 2) eqn:E2; [discriminate|].
    apply Nat.ltb_ge in E1, E2.
    destruct (spacing (size fx) dx) as [e|k] eqn:S; simpl.
    + intros H. inversion H. subst e.
      destruct (spacing_error _ _ _ S) as [E|E]; discriminate.
    + destruct (bad_initial f1) as [eb|[|]] eqn:B; simpl; intros H.
      * apply bad_initial_error in B. destruct B as [-> _]. discriminate.
      * assert (Hd : ndim fx = 1).
        { destruct (ndim fx) as [|[|d]] eqn:D; [|reflexivity|lia].
          exfalso. unfold ndim in D. apply length_zero_iff_nil in D.
          unfold size in E2. rewrite D in E2. simpl in E2. lia. }
        apply bad_initial_true in B. destruct B as [Hne Hf].
        repeat split; [assumption | assumption | eauto | assumption | assumption].
      * discriminate.
  - intros (Hd & Hs & [k Hk] & Hne & Hf).
    rewrite resolve_checked by assumption. rewrite Hk. cbn [bind].
    now rewrite (proj2 (bad_initial_true f1) (conj Hne Hf)).
Qed.

(** ** What is returned *)

(** X7. With a spacing sequence of n coordinates and a fitter that returns
    one piece per gap, whatever the call returns is the initial value added
    to zero followed by the running sums of the n-1 segment integrals over
    the gaps between the coordinates: n values. *)
Theorem sequence_spacing_output (fit : fitter) (l s : list float) (f1 : pyval)
        (out : list float) :
  shape_contract fit ->
  length s = length l ->
  intgrad1 fit (vec l) (Seq s) f1 = inr out ->
  exists v c,
    elems f1 = [v] /\ fit s l = inr c /\ length c = length l - 1
    /\ out = map (PrimFloat.add v)
                 (0%float :: cumsum (Arr1 (zip_with seg_integral (diff s) c)))
    /\ length out = length l.
Proof.
  intros Hfit Hl H. unfold intgrad1 in H.
  apply bind_inr in H. destruct H as [kn [R I]].
  pose proof (resolved_xp_length _ _ _ _ R) as Hxp.
  pose proof (resolve_inr _ _ _ _ R) as (_ & Hs & Hk & B).
  rewrite size_vec in Hs, Hk.
  apply bad_initial_spec in B. destruct B as [v [Hv _]].
  apply spacing_inr in Hk.
  destruct Hk as [[x [Hx _]] | (s' & Es & _ & _ & Exp & Ew)].
  { simpl in Hx. subst s. simpl in Hl. lia. }
  injection Es as <-.
  apply integrate_inr in I. destruct I as (c & fhat & F & Hseg & S).
  change (data (vec l)) with l in F. rewrite Exp in F.
  assert (Hc : length c = length l - 1).
  { rewrite (Hfit _ _ _ F). lia. }
  rewrite Ew, segment_integrals_rank1 in Hseg by (rewrite length_diff; lia).
  injection Hseg as <-.
  rewrite (scale_single _ _ v _ Hv) in S. injection S as <-.
  exists v, c. repeat split; try assumption.
  cbn [map length]. rewrite length_map, length_cumsum. cbn [ravel].
  rewrite zip_with_length, length_diff. lia.
Qed.

Lemma sequence_spacing_output_witness :
  exists v c,
    elems (Scalar 7%float) = [v]
    /\ chord_fit [0; 1; 2]%float [1; 2; 2]%float = inr c
    /\ length c = length [1; 2; 2]%float - 1
    /\ [7; 8.5; 10.5]%float
       = map (PrimFloat.add v)
             (0%float :: cumsum (Arr1 (zip_with seg_integral (diff [0; 1; 2]%float) c)))
    /\ length [7; 8.5; 10.5]%float = length [1; 2; 2]%float.
Proof.
  apply (sequence_spacing_output chord_fit [1; 2; 2]%float [0; 1; 2]%float
           (Scalar 7%float) [7; 8.5; 10.5]%float).
  - exact chord_fit_shape.
  - reflexivity.
  - vm_compute. reflexivity.
Defined.

(** X8. With a scalar spacing dx and a fitter that returns one piece per
    gap, whatever the call returns is the initial value added to zero
    followed by the running sums of the row of n-1 segment integrals taken
    n-1 times over: after the n values of the reconstruction the same
    integrals are added again and again. *)
Theorem scalar_spacing_output (fit : fitter) (l : list float) (dx f1 : pyval)
        (x : float) (out : list float) :
  shape_contract fit ->
  elems dx = [x] ->
  intgrad1 fit (vec l) dx f1 = inr out ->
  exists v c,
    elems f1 = [v] /\ fit (grid (length l) x) l = inr c /\ length c = length l - 1
    /\ out = map (PrimFloat.add v)
                 (0%float :: cumsum (Arr2 (repeat (map (seg_integral x) c)
                                                  (length l - 1)))).
Proof.
  intros Hfit Hx H. unfold intgrad1 in H.
  apply bind_inr in H. destruct H as [kn [R I]].
  pose proof (resolve_inr _ _ _ _ R) as (_ & Hs & Hk & B).
  rewrite size_vec in Hs, Hk.
  apply bad_initial_spec in B. destruct B as [v [Hv _]].
  rewrite (spacing_single _ _ _ Hx) in Hk. injection Hk as <-.
  apply integrate_inr in I. destruct I as (c & fhat & F & Hseg & S).
  cbn [xp widths data vec] in F, Hseg.
  assert (Hc : length c = length l - 1).
  { rewrite (Hfit _ _ _ F), length_grid. reflexivity. }
  rewrite segment_integrals_rank2 in Hseg by (assumption || lia).
  injection Hseg as <-.
  rewrite (scale_single _ _ v _ Hv) in S. injection S as <-.
  exists v, c. repeat split; assumption.
Qed.

Lemma scalar_spacing_output_witness :
  exists v c,
    elems (Scalar 0%float) = [v]
    /\ chord_fit (grid (length [1; 1; 1]%float) 1%float) [1; 1; 1]%float = inr c
    /\ length c = length [1; 1; 1]%float - 1
    /\ [0; 1; 2; 3; 4]%float
       = map (PrimFloat.add v)
             (0%float :: cumsum (Arr2 (repeat (map (seg_integral 1%float) c)
                                              (length [1; 1; 1]%float - 1)))).
Proof.
  apply (scalar_spacing_output chord_fit [1; 1; 1]%float (Scalar 1%float)
           (Scalar 0%float) 1%float [0; 1; 2; 3; 4]%float).
  - exact chord_fit_shape.
  - reflexivity.
  - vm_compute. reflexivity.
Defined.

(** X9. For two samples the scalar spacing does what the docstring says:
    the call returns two values, the initial value and the initial value
    plus the integral of the one piece over dx. *)
Theorem two_samples_scalar_output (fit : fitter) (a b : float) (dx f1 : pyval)
        (x : float) (out : list float) :
  shape_contract fit ->
  elems dx = [x] ->
  intgrad1 fit (vec [a; b]) dx f1 = inr out ->
  exists v p,
    elems f1 = [v] /\ fit (grid 2 x) [a; b] = inr [p]
    /\ out = [(v + 0)%float; (v + seg_integral x p)%float].
Proof.
  intros Hfit Hx H. unfold intgrad1 in H.
  apply bind_inr in H. destruct H as [kn [R I]].
  pose proof (resolve_inr _ _ _ _ R) as (_ & _ & Hk & B).
  rewrite size_vec in Hk.
  apply bad_initial_spec in B. destruct B as [v [Hv _]].
  rewrite (spacing_single _ _ _ Hx) in Hk. injection Hk as <-.
  apply integrate_inr in I. destruct I as (c & fhat & F & Hseg & S).
  cbn [xp widths data vec] in F, Hseg.
  assert (Hc : length c = 1).
  { rewrite (Hfit _ _ _ F), length_grid. reflexivity. }
  destruct c as [|p [|q c]]; try discriminate.
  change (Arr2 [[x]]) with (Arr2 (repeat [x] 1)) in Hseg.
  rewrite (segment_integrals_rank2 x [p] 1) in Hseg by (reflexivity || lia).
  injection Hseg as <-.
  rewrite (scale_single _ _ v _ Hv) in S. injection S as <-.
  exists v, p. split; [assumption|]. split; [exact F | reflexivity].
Qed.

Lemma two_samples_scalar_output_witness :
  exists v p,
    elems (Scalar 10%float) = [v]
    /\ chord_fit (grid 2 2%float) [1; 3]%float = inr [p]
    /\ [10; 14]%float = [(v + 0)%float; (v + seg_integral 2%float p)%float].
Proof.
  apply (two_samples_scalar_output chord_fit 1%float 3%float (Scalar 2%float)
           (Scalar 10%float) 2%float [10; 14]%float).
  - exact chord_fit_shape.
  - reflexivity.
  - vm_compute. reflexivity.
Defined.

(** X10. An initial value given as a sequence of one number is taken for
    that number: the check of line 83 and the sum of line 91 treat both
    alike. *)
Theorem one_element_initial (fit : fitter) (fx : ndarray) (dx : pyval) (v : float) :
  intgrad1 fit fx dx (Seq [v]) = intgrad1 fit fx dx (Scalar v).
Proof.
  unfold intgrad1.
  assert (R : resolve fx dx (Seq [v]) = resolve fx dx (Scalar v)) by reflexivity.
  rewrite R. destruct (resolve fx dx (Scalar v)) as [e|kn]; [reflexivity|].
  cbn [bind]. unfold integrate.
  destruct (fit (xp kn) (data fx)) as [m|c]; [reflexivity|].
  destruct (segment_integrals (widths kn) c) as [e|fhat]; [reflexivity|].
  cbn [bind].
  now rewrite (scale_single _ (Seq [v]) v _ eq_refl),
              (scale_single _ (Scalar v) v _ eq_refl).
Qed.

(** ** What the spacing resolver leaves behind *)

Lemma resolve_sequence_inr (l : list float) (dx f1 : pyval) (kn : knots) :
  resolve (vec l) dx f1 = inr kn ->
  np_size dx <> 1 ->
  exists s,
    dx = Seq s /\ length s = length l /\ any_nonpositive (diff s) = false
    /\ kn = {| xp := s; widths := Arr1 (diff s);
               uniflag := negb (any_above (PrimFloat.mul (last s 0%float) tiny)
                                          (diff (diff s))) |}.
Proof.
  intros R N. apply resolve_inr in R. destruct R as (_ & Hs & Hk & _).
  rewrite size_vec in Hs, Hk.
  destruct dx as [y|s]; [now contradiction N|]. exists s.
  unfold np_size in N. simpl in N.
  destruct (Nat.eq_dec (length s) (length l)) as [E|E].
  - rewrite spacing_sequence in Hk by lia.
    destruct (any_nonpositive (diff s)) eqn:A; [discriminate|].
    injection Hk as <-. auto.
  - rewrite spacing_refused in Hk by (unfold np_size; simpl; assumption).
    discriminate.
Qed.

Lemma existsb_false {A : Type} (f : A -> bool) (l : list A) (x : A) :
  existsb f l = false -> In x l -> f x = false.
Proof.
  intros H Hin. destruct (f x) eqn:E; [|reflexivity].
  rewrite <- H. symmetry. apply existsb_exists. eauto.
Qed.

(** X11. After validation the coordinates are as many as the samples and
    the widths one fewer.  For a spacing sequence no width is [<= 0]; for a
    scalar spacing every width is that scalar, whatever its sign. *)
Theorem resolved_knots_invariants (l : list float) (dx f1 : pyval) (kn : knots) :
  resolve (vec l) dx f1 = inr kn ->
  length (xp kn) = length l
  /\ length (segment_widths kn) = length l - 1
  /\ (np_size dx <> 1 ->
      forall w, In w (segment_widths kn) -> (w <=? 0)%float = false)
  /\ (forall x, elems dx = [x] -> forall w, In w (segment_widths kn) -> w = x).
Proof.
  intros R. split; [exact (resolved_xp_length _ _ _ _ R)|].
  destruct (segment_widths_resolved l dx f1 kn R) as [Hone Hseq].
  split; [|split].
  - destruct (Nat.eq_dec (np_size dx) 1) as [E|E].
    + destruct (single_elem dx E) as [x Hx].
      rewrite (Hone x Hx). apply repeat_length.
    + rewrite (Hseq E), length_diff.
      destruct (resolve_sequence_inr l dx f1 kn R E) as (s & -> & Hl & _).
      simpl. lia.
  - intros N w Hin.
    destruct (resolve_sequence_inr l dx f1 kn R N) as (s & -> & _ & A & ->).
    unfold segment_widths in Hin. cbn [widths ravel] in Hin.
    exact (existsb_false _ _ _ A Hin).
  - intros x Hx w Hin. rewrite (Hone x Hx) in Hin.
    exact (repeat_spec _ _ _ Hin).
Qed.

Lemma resolved_knots_invariants_witness :
  length (xp {| xp := [0; 1; 3]%float; widths := Arr1 [1; 2]%float; uniflag := false |})
  = length [1; 3; 2]%float
  /\ length (segment_widths
               {| xp := [0; 1; 3]%float; widths := Arr1 [1; 2]%float; uniflag := false |})
     = length [1; 3; 2]%float - 1
  /\ (np_size (Seq [0; 1; 3]%float) <> 1 ->
      forall w,
        In w (segment_widths
                {| xp := [0; 1; 3]%float; widths := Arr1 [1; 2]%float; uniflag := false |}) ->
        (w <=? 0)%float = false)
  /\ (forall x, elems (Seq [0; 1; 3]%float) = [x] ->
      forall w,
        In w (segment_widths
                {| xp := [0; 1; 3]%float; widths := Arr1 [1; 2]%float; uniflag := false |}) ->
        w = x).
Proof.
  apply (resolved_knots_invariants [1; 3; 2]%float (Seq [0; 1; 3]%float) (Scalar 0%float)).
  vm_compute. reflexivity.
Defined.

Lemma nth_second_difference (s : list float) (i : nat) :
  i + 2 < length s ->
  nth i (diff (diff s)) 0%float = second_difference s i.
Proof.
  intros H. unfold second_difference.
  rewrite nth_diff by (rewrite length_diff; lia).
  rewrite !nth_diff by lia.
  replace (i + 1 + 1) with (i + 2) by lia. reflexivity.
Qed.

(** X12. The uniformity flag of lines 66-80: it stays set for a scalar
    spacing and for two samples (there is no second difference then), and
    for a spacing sequence it is cleared exactly when the absolute value of
    some second difference of the coordinates exceeds the last coordinate
    times 1e-15. *)
Theorem uniflag_resolved (l : list float) (dx f1 : pyval) (kn : knots) :
  resolve (vec l) dx f1 = inr kn ->
  (np_size dx = 1 -> uniflag kn = true)
  /\ (length l = 2 -> uniflag kn = true)
  /\ (np_size dx <> 1 ->
      (uniflag kn = false
       <-> exists i, i + 2 < length l
                     /\ (last (elems dx) 0 * tiny
                         <? abs (second_difference (elems dx) i))%float = true)).
Proof.
  intros R.
  assert (One : np_size dx = 1 -> uniflag kn = true).
  { intros E. destruct (single_elem dx E) as [x Hx].
    pose proof (resolve_inr _ _ _ _ R) as (_ & _ & Hk & _).
    rewrite (spacing_single _ _ _ Hx) in Hk. now injection Hk as <-. }
  assert (Seq : np_size dx <> 1 ->
                (uniflag kn = false
                 <-> exists i, i + 2 < length l
                       /\ (last (elems dx) 0 * tiny
                           <? abs (second_difference (elems dx) i))%float = true)).
  { intros N.
    destruct (resolve_sequence_inr l dx f1 kn R N) as (s & -> & Hl & _ & ->).
    cbn [uniflag elems]. rewrite Bool.negb_false_iff.
    unfold any_above. rewrite existsb_exists. split.
    - intros [d [Hin Hd]]. apply (In_nth _ _ 0%float) in Hin.
      destruct Hin as [i [Hi Hn]]. rewrite !length_diff in Hi.
      exists i. split; [lia|]. rewrite <- nth_second_difference by lia.
      now rewrite Hn.
    - intros [i [Hi Hd]]. exists (nth i (diff (diff s)) 0%float). split.
      + apply nth_In. rewrite !length_diff. lia.
      + now rewrite nth_second_difference by lia. }
  split; [exact One|]. split; [|exact Seq].
  intros H2. destruct (Nat.eq_dec (np_size dx) 1) as [E|E]; [now apply One|].
  apply Bool.not_false_is_true. intros U.
  apply (Seq E) in U. destruct U as [i [Hi _]]. lia.
Qed.

Lemma uniflag_resolved_witness :
  (np_size (Seq [0; 1; 3]%float) = 1 ->
   uniflag {| xp := [0; 1; 3]%float; widths := Arr1 [1; 2]%float; uniflag := false |} = true)
  /\ (length [1; 3; 2]%float = 2 ->
      uniflag {| xp := [0; 1; 3]%float; widths := Arr1 [1; 2]%float; uniflag := false |}
      = true)
  /\ (np_size (Seq [0; 1; 3]%float) <> 1 ->
      (uniflag {| xp := [0; 1; 3]%float; widths := Arr1 [1; 2]%float; uniflag := false |}
       = false
       <-> exists i, i + 2 < length [1; 3; 2]%float
                     /\ (last (elems (Seq [0; 1; 3]%float)) 0 * tiny
                         <? abs (second_difference (elems (Seq [0; 1; 3]%float)) i))%float
                        = true)).
Proof.
  apply (uniflag_resolved [1; 3; 2]%float (Seq [0; 1; 3]%float) (Scalar 0%float)).
  vm_compute. reflexivity.
Defined.

(** ** The returned array *)

Module StoreFresh.
Import Store.

Lemma unchanged_length (h h' : store) : unchanged h h' -> length h <= length h'.
Proof.
  intros U. destruct (le_lt_dec (length h) (length h')) as [L|L]; [exact L|].
  exfalso. destruct (nth_error h (length h')) as [c|] eqn:E.
  - apply U in E. assert (N : nth_error h' (length h') = None).
    { apply nth_error_None. lia. }
    congruence.
  - apply nth_error_None in E. lia.
Qed.

Lemma fresh_throw (e : exn) : returns_new_array (throw e).
Proof. intros h h' p H. discriminate. Qed.

Lemma fresh_new (out : list float) : returns_new_array (new (Nd (vec out))).
Proof.
  intros h h' p H. unfold new in H. injection H as <- <-.
  split; [lia|]. exists out. apply StoreFacts.nth_error_last.
Qed.

Lemma fresh_mbind {A : Type} (m : M A) (k : A -> M loc) :
  preserving m -> (forall a, returns_new_array (k a)) ->
  returns_new_array (mbind m k).
Proof.
  intros Hm Hk h h' p H. unfold mbind in H.
  specialize (Hm h). destruct (m h) as [h1 [e|a]]; [discriminate|].
  simpl in Hm. apply unchanged_length in Hm.
  destruct (Hk a h1 h' p H) as [L X]. split; [lia | exact X].
Qed.

Lemma fresh_intgrad1 (fit : fitter) (fx : loc) (dx f1 : value) :
  returns_new_array (Store.intgrad1 fit fx dx f1).
Proof.
  unfold Store.intgrad1. cbv zeta.
  repeat first
    [ apply fresh_throw | apply fresh_new
    | apply fresh_mbind; [StoreFacts.preserve | intro]
    | match goal with
      | |- returns_new_array (if ?b then _ else _) => destruct b
      | |- returns_new_array (match ?x with _ => _ end) => destruct x
      end ].
Qed.

End StoreFresh.

(** X13. What the call returns is a new array: its location lies beyond
    every object the store held before the call, so the output shares no
    storage with the derivative or the spacing array. *)
Theorem result_is_new_array (fit : fitter) (fx : Store.loc) (dx f1 : Store.value)
        (h h' : Store.store) (p : Store.loc) :
  Store.intgrad1 fit fx dx f1 h = (h', inr p) ->
  length h <= p /\ exists out, nth_error h' p = Some (Store.Nd (vec out)).
Proof.
  apply (StoreFresh.fresh_intgrad1 fit fx dx f1).
Qed.

Lemma result_is_new_array_witness :
  length [Store.Nd (vec [1; 1; 1]%float); Store.Nd (vec [0; 1; 2]%float)] <= 5
  /\ exists out,
      nth_error
        [Store.Nd (vec [1; 1; 1]%float); Store.Nd (vec [0; 1; 2]%float);
         Store.Grid (Arr1 [1; 1]%float);
         Store.Coefs (chords [0; 1; 2]%float [1; 1; 1]%float);
         Store.Grid (Arr1 [1; 1]%float); Store.Nd (vec [0; 1; 2]%float)] 5
      = Some (Store.Nd (vec out)).
Proof.
  apply (result_is_new_array chord_fit 0 (Store.VRef 1) (Store.VNum 0%float)
           [Store.Nd (vec [1; 1; 1]%float); Store.Nd (vec [0; 1; 2]%float)]).
  vm_compute. reflexivity.
Defined.
